(** * Mission Control front end: optimistic list delete and URL-synchronised sorting

    A shallow embedding of two modules of the front end,
    [frontend/src/lib/list-delete.ts] and [frontend/src/lib/use-url-sorting.ts],
    together with the properties their specification states about them.

    Conventions of the embedding.
    - A JavaScript value is a [JsVal].  Numbers are IEEE 754 binary64 values
      ([spec_float] at precision 53), with the arithmetic of that format;
      objects are association lists in property order.
    - The query cache is a record holding the stored entries (a [gmap]) and the
      log of the calls made on the client, so that "no write happened" is a
      statement about the log.
    - Strings are byte strings: a [string] stands for the UTF-8 encoding of
      the JavaScript string. *)

From Stdlib Require Import ZArith Ascii String Bool Lia.
From Stdlib Require Import Floats.SpecFloat.
From stdpp Require Import base option list gmap strings.

Local Open Scope Z_scope.

(* ===================================================================== *)
(** * JavaScript values *)
(* ===================================================================== *)

(** A JavaScript number: a binary64 value, with signed zeros, infinities and
    one NaN.  The numbers of the language are the canonical values of the
    type; the operations below take canonical values to canonical values. *)
Abbreviation JsNumber := spec_float.

(** The number written as the integer literal [z] (rounded to the nearest
    binary64 value, as a literal is). *)
Definition number_of_Z (z : Z) : JsNumber := binary_normalize 53 1024 z 0 false.

Coercion number_of_Z : Z >-> spec_float.

(** [x - y]. *)
Definition js_sub (x y : JsNumber) : JsNumber := SFsub 53 1024 x y.

(** [x < y] and [x === y] on numbers; both are false when one side is NaN. *)
Definition js_lt (x y : JsNumber) : bool := SFltb x y.
Definition js_eq (x y : JsNumber) : bool := SFeqb x y.

(** [Math.max(x, y)]: NaN when one argument is, and [+0] above [-0]. *)
Definition js_max (x y : JsNumber) : JsNumber :=
  match x, y with
  | S754_nan, _ | _, S754_nan => S754_nan
  | S754_zero sx, S754_zero sy => S754_zero (sx && sy)
  | _, _ => if js_lt x y then y else x
  end.

#[global] Arguments number_of_Z : simpl never.
#[global] Arguments js_sub : simpl never.
#[global] Arguments js_lt : simpl never.
#[global] Arguments js_max : simpl never.

#[warnings="-register-all"]
Inductive JsVal : Type :=
| JUndefined
| JNull
| JBool (b : bool)
| JNum (n : JsNumber)
| JStr (s : string)
| JArr (elems : list JsVal)
| JObj (fields : list (string * JsVal)).

(** [!v] is [negb (truthy v)]. *)
Definition truthy (v : JsVal) : bool :=
  match v with
  | JUndefined | JNull => false
  | JBool b => b
  | JNum n => match n with S754_zero _ | S754_nan => false | _ => true end
  | JStr s => negb (String.eqb s "")
  | JArr _ | JObj _ => true
  end.

(** [typeof v === "object"]: objects, arrays and [null]. *)
Definition typeof_object (v : JsVal) : bool :=
  match v with
  | JNull | JArr _ | JObj _ => true
  | _ => false
  end.

(** [typeof v === "number"]. *)
Definition typeof_number (v : JsVal) : bool :=
  match v with JNum _ => true | _ => false end.

(** [Array.isArray(v)]. *)
Definition isArray (v : JsVal) : bool :=
  match v with JArr _ => true | _ => false end.

(** Own-property lookup in an object's field list. *)
Fixpoint obj_get (k : string) (fs : list (string * JsVal)) : JsVal :=
  match fs with
  | [] => JUndefined
  | (k', v) :: fs' => if String.eqb k k' then v else obj_get k fs'
  end.

(** [v.k] for a value [v] that is neither [null] nor [undefined]; a missing
    property reads as [undefined]. *)
Definition get_prop (v : JsVal) (k : string) : JsVal :=
  match v with
  | JObj fs => obj_get k fs
  | _ => JUndefined
  end.

(** [{ ...o, k: v }]: an existing property keeps its place and takes the new
    value, a new property goes last. *)
Fixpoint obj_set (k : string) (v : JsVal) (fs : list (string * JsVal))
  : list (string * JsVal) :=
  match fs with
  | [] => [(k, v)]
  | (k', v') :: fs' =>
      if String.eqb k k' then (k', v) :: fs' else (k', v') :: obj_set k v fs'
  end.

(** The enumerable own properties copied by [{ ...(v as object) }]. *)
Definition spread (v : JsVal) : list (string * JsVal) :=
  match v with
  | JObj fs => fs
  | _ => []
  end.

(** [v === 200]. *)
Definition is_200 (v : JsVal) : bool :=
  match v with JNum n => js_eq n 200 | _ => false end.

(* ===================================================================== *)
(** * The query client *)
(* ===================================================================== *)

(** A query key; the client identifies a query by its key. *)
Abbreviation QueryKey := (list string).

Inductive ClientCall : Type :=
| CancelQueries (key : QueryKey)
| SetQueryData (key : QueryKey) (data : JsVal)
| InvalidateQueries (key : QueryKey).

Record QueryClient : Type := mkClient {
  entries : gmap QueryKey JsVal;
  calls : list ClientCall   (* oldest first *)
}.

(** A computation on the query client. *)
Definition Q (A : Type) : Type := QueryClient -> A * QueryClient.

Definition ret {A} (a : A) : Q A := fun c => (a, c).
Definition bind {A B} (m : Q A) (k : A -> Q B) : Q B :=
  fun c => let (a, c') := m c in k a c'.

Declare Scope q_scope.
Delimit Scope q_scope with Q.
Notation "'let*' x ':=' m 'in' k" := (bind m (fun x => k))
  (at level 10, x name, m at level 100, k at level 200) : q_scope.

Definition record (call : ClientCall) (c : QueryClient) : QueryClient :=
  mkClient (entries c) (calls c ++ [call]).

Definition cancelQueries (key : QueryKey) : Q unit :=
  fun c => (tt, record (CancelQueries key) c).

(** [getQueryData(key)]: the stored entry, [undefined] when there is none. *)
Definition getQueryData (key : QueryKey) : Q JsVal :=
  fun c => (default JUndefined (entries c !! key), c).

(** [setQueryData(key, data)]: the client ignores an [undefined] value. *)
Definition setQueryData (key : QueryKey) (data : JsVal) : Q unit :=
  fun c =>
    let c' := record (SetQueryData key data) c in
    match data with
    | JUndefined => (tt, c')
    | _ => (tt, mkClient (<[key := data]> (entries c')) (calls c'))
    end.

Definition invalidateQueries (key : QueryKey) : Q unit :=
  fun c => (tt, record (InvalidateQueries key) c).

(** [for (const key of keys) body(key)]. *)
Fixpoint for_of {A} (xs : list A) (body : A -> Q unit) : Q unit :=
  match xs with
  | [] => ret tt
  | x :: xs' => (let* _ := body x in for_of xs' body)%Q
  end.

(** The writes among a list of calls. *)
Definition is_write (call : ClientCall) : bool :=
  match call with SetQueryData _ _ => true | _ => false end.

(* ===================================================================== *)
(** * list-delete.ts *)
(* ===================================================================== *)

Module ListDelete.

(** [ListPayload<TItem>]: the [data] object, with its two typed fields. *)
Record ListPayload : Type := mkPayload {
  payload_fields : list (string * JsVal);
  items : list JsVal;
  total : JsNumber
}.

Definition isListPayload (value : JsVal) : bool :=
  if negb (truthy value) || negb (typeof_object value) then false
  else isArray (get_prop value "items") && typeof_number (get_prop value "total").

(** The view of a value that passed [isListPayload]. *)
Definition as_payload (value : JsVal) : option ListPayload :=
  match get_prop value "items", get_prop value "total" with
  | JArr its, JNum t => Some (mkPayload (spread value) its t)
  | _, _ => None
  end.

Definition getListPayload (response : JsVal) : option ListPayload :=
  if negb (truthy response) || negb (typeof_object response) then None
  else
    let data := get_prop response "data" in
    if isListPayload data then as_payload data else None.

(** [OptimisticListDeleteContext]: [previous] is [JUndefined] when absent. *)
Record Context : Type := mkContext { previous : JsVal }.

Section Mutation.

(** The options of [createOptimisticListDeleteMutation]. *)
Context {TVariables : Type}.
Variable queryKey : QueryKey.
Variable getItemId : JsVal -> string.
Variable getDeleteId : TVariables -> string.
Variable invalidateQueryKeys : option (list QueryKey).

Definition keysToInvalidate : list QueryKey :=
  match invalidateQueryKeys with
  | Some keys => if (0 <? Z.of_nat (length keys)) then keys else [queryKey]
  | None => [queryKey]
  end.

(** The entry written by the optimistic step. *)
Definition rewritten (previous : JsVal) (payload : ListPayload)
    (nextItems : list JsVal) (removedCount : JsNumber) : JsVal :=
  JObj (obj_set "data"
          (JObj (obj_set "total"
                   (JNum (js_max 0 (js_sub (total payload) removedCount)))
                   (obj_set "items" (JArr nextItems) (payload_fields payload))))
          (spread previous)).

Definition onMutate (variables : TVariables) : Q Context :=
  (let* _ := cancelQueries queryKey in
   let* previous := getQueryData queryKey in
   if truthy previous && is_200 (get_prop previous "status") then
     match getListPayload previous with
     | None => ret (mkContext previous)
     | Some payload =>
         let deleteId := getDeleteId variables in
         let nextItems :=
           List.filter (fun item => negb (String.eqb (getItemId item) deleteId))
                       (items payload) in
         (* both lengths are integers below 2^32, and a number holds the
            difference of two such integers exactly *)
         let removedCount : JsNumber :=
           number_of_Z
             (Z.of_nat (length (items payload)) - Z.of_nat (length nextItems)) in
         let* _ :=
           setQueryData queryKey
             (rewritten previous payload nextItems removedCount) in
         ret (mkContext previous)
     end
   else ret (mkContext previous))%Q.

(** [context] is [None] when the argument is left out. *)
Definition onError (context : option Context) : Q unit :=
  match context with
  | Some ctx =>
      if truthy (previous ctx) then setQueryData queryKey (previous ctx)
      else ret tt
  | None => ret tt
  end.

Definition onSettled : Q unit :=
  for_of keysToInvalidate (fun key => invalidateQueries key).

End Mutation.

End ListDelete.

(* ===================================================================== *)
(** * URLSearchParams *)
(* ===================================================================== *)

(** The platform's [URLSearchParams]: an ordered list of name/value pairs,
    read from and written to the [application/x-www-form-urlencoded] format.
    Names and values are byte strings: the percent-decoded bytes are kept as
    they are.  The platform goes on to read these bytes as UTF-8 and puts
    U+FFFD in place of a sequence that is not UTF-8; that step is left out,
    so a name or value here stands for the text that its bytes encode. *)
Module URLSearchParams.

Abbreviation t := (list (string * string)).

Local Open Scope char_scope.

Definition hex_val (c : ascii) : option N :=
  let n := N_of_ascii c in
  if ((48 <=? n) && (n <=? 57))%N then Some (n - 48)%N
  else if ((65 <=? n) && (n <=? 70))%N then Some (n - 55)%N
  else if ((97 <=? n) && (n <=? 102))%N then Some (n - 87)%N
  else None.

Definition hex_digit (n : N) : ascii :=
  if (n <? 10)%N then ascii_of_N (48 + n) else ascii_of_N (55 + n).

Fixpoint percent_decode (s : string) : string :=
  match s with
  | EmptyString => EmptyString
  | String c s' =>
      if Ascii.eqb c "%" then
        match s' with
        | String h (String l rest) =>
            match hex_val h, hex_val l with
            | Some a, Some b =>
                String (ascii_of_N (16 * a + b)) (percent_decode rest)
            | _, _ => String c (percent_decode s')
            end
        | _ => String c (percent_decode s')
        end
      else String c (percent_decode s')
  end.

Fixpoint plus_to_space (s : string) : string :=
  match s with
  | EmptyString => EmptyString
  | String c s' => String (if Ascii.eqb c "+" then " " else c) (plus_to_space s')
  end.

Definition decode_component (s : string) : string :=
  percent_decode (plus_to_space s).

(** The pieces of [s] between occurrences of [sep]; always at least one. *)
Fixpoint split_on (sep : ascii) (s : string) : list string :=
  match s with
  | EmptyString => [EmptyString]
  | String c s' =>
      if Ascii.eqb c sep then EmptyString :: split_on sep s'
      else match split_on sep s' with
           | p :: ps => String c p :: ps
           | [] => [String c EmptyString]
           end
  end.

(** [s] cut at its first [sep], when it has one. *)
Fixpoint split_first (sep : ascii) (s : string) : option (string * string) :=
  match s with
  | EmptyString => None
  | String c s' =>
      if Ascii.eqb c sep then Some (EmptyString, s')
      else match split_first sep s' with
           | Some (a, b) => Some (String c a, b)
           | None => None
           end
  end.

Definition parse_pair (piece : string) : string * string :=
  match split_first "=" piece with
  | Some (n, v) => (decode_component n, decode_component v)
  | None => (decode_component piece, EmptyString)
  end.

Definition nonempty (s : string) : bool :=
  match s with EmptyString => false | _ => true end.

Definition parse (s : string) : t :=
  List.map parse_pair (List.filter nonempty (split_on "&" s)).

(** [new URLSearchParams(init)] for a string: one leading [?] is dropped. *)
Definition new (init : string) : t :=
  match init with
  | String c s' => if Ascii.eqb c "?" then parse s' else parse init
  | EmptyString => parse init
  end.

(** Bytes written as they are: ASCII letters and digits and [*-._]. *)
Definition unreserved (c : ascii) : bool :=
  let n := N_of_ascii c in
  (((48 <=? n) && (n <=? 57)) || ((65 <=? n) && (n <=? 90))
   || ((97 <=? n) && (n <=? 122))
   || (n =? 42) || (n =? 45) || (n =? 46) || (n =? 95))%N.

Definition urlencode_byte (c : ascii) : string :=
  if Ascii.eqb c " " then String "+" EmptyString
  else if unreserved c then String c EmptyString
  else
    let n := N_of_ascii c in
    String "%" (String (hex_digit (n / 16)) (String (hex_digit (n mod 16)) EmptyString)).

Fixpoint urlencode (s : string) : string :=
  match s with
  | EmptyString => EmptyString
  | String c s' => String.append (urlencode_byte c) (urlencode s')
  end.

Definition serialize_pair (p : string * string) : string :=
  String.append (urlencode (fst p)) (String "=" (urlencode (snd p))).

Fixpoint toString (params : t) : string :=
  match params with
  | [] => EmptyString
  | [p] => serialize_pair p
  | p :: rest => String.append (serialize_pair p) (String "&" (toString rest))
  end.

(** [get(name)]: the first value under [name]; [None] stands for [null]. *)
Fixpoint get (name : string) (params : t) : option string :=
  match params with
  | [] => None
  | (n, v) :: rest => if String.eqb n name then Some v else get name rest
  end.

(** [delete(name)]: every pair under [name] goes. *)
Definition delete (name : string) (params : t) : t :=
  List.filter (fun p => negb (String.eqb (fst p) name)) params.

(** [set(name, value)]: the first pair under [name] takes the value and the
    others go; without such a pair, a new one goes last. *)
Fixpoint set (name value : string) (params : t) : t :=
  match params with
  | [] => [(name, value)]
  | (n, v) :: rest =>
      if String.eqb n name then (n, value) :: delete name rest
      else (n, v) :: set name value rest
  end.

End URLSearchParams.

(* ===================================================================== *)
(** * use-url-sorting.ts *)
(* ===================================================================== *)

Module UrlSorting.

Definition SORT_NONE_SENTINEL : string := "none".

(** [ColumnSort] and [SortingState] of the table library. *)
Record ColumnSort : Type := mkSort { id : string; desc : bool }.
Abbreviation SortingState := (list ColumnSort).

(** [Updater<SortingState>]: a new value, or a function of the old one. *)
Inductive Updater : Type :=
| UValue (next : SortingState)
| UFn (f : SortingState -> SortingState).

Definition functionalUpdate (updater : Updater) (input : SortingState)
  : SortingState :=
  match updater with
  | UValue next => next
  | UFn f => f input
  end.

(** A string is truthy when it is not empty. *)
Definition str_truthy (s : string) : bool := negb (String.eqb s "").

Definition resolveSortParam (paramPrefix : option string) : string :=
  match paramPrefix with
  | Some p => if str_truthy p then p +:+ "_sort" else "sort"
  | None => "sort"
  end.

Definition resolveDirectionParam (paramPrefix : option string) : string :=
  match paramPrefix with
  | Some p => if str_truthy p then p +:+ "_dir" else "dir"
  | None => "dir"
  end.

Fixpoint normalizeSorting (value : SortingState) (allowedColumnIds : gset string)
  : SortingState :=
  match value with
  | [] => []
  | sort :: rest =>
      if bool_decide (id sort ∈ allowedColumnIds)
      then [mkSort (id sort) (desc sort)]
      else normalizeSorting rest allowedColumnIds
  end.

(** [a[0]?.id === b[0]?.id && Boolean(a[0]?.desc) === Boolean(b[0]?.desc)]
    after the two length tests. *)
Definition isSameSorting (a b : SortingState) : bool :=
  if negb (Nat.eqb (length a) (length b)) then false
  else if Nat.eqb (length a) 0 then true
  else bool_decide (id <$> head a = id <$> head b)
       && Bool.eqb (default false (desc <$> head a))
                   (default false (desc <$> head b)).

(** What the hook holds and what it did: its copy of the query string and
    the URLs given to [router.replace], oldest first. *)
Record Browser : Type := mkBrowser {
  searchParamsString : string;
  replaced : list string
}.

Section Hook.

(** The options of [useUrlSorting] and the current path. *)
Variable allowedColumnIds : list string.
Variable defaultSorting : option SortingState.
Variable paramPrefix : option string.
Variable pathname : string.

Definition allowedSet : gset string := list_to_set allowedColumnIds.

Definition normalizedDefaultSorting : SortingState :=
  normalizeSorting (default [] defaultSorting) allowedSet.

Definition sortParam : string := resolveSortParam paramPrefix.
Definition directionParam : string := resolveDirectionParam paramPrefix.

(** The [sorting] memo. *)
Definition sorting (searchParamsString : string) : SortingState :=
  let searchParams := URLSearchParams.new searchParamsString in
  match URLSearchParams.get sortParam searchParams with
  | None => normalizedDefaultSorting
  | Some sortValue =>
      if negb (str_truthy sortValue) then normalizedDefaultSorting
      else if String.eqb sortValue SORT_NONE_SENTINEL then []
      else if negb (bool_decide (sortValue ∈ allowedSet))
      then normalizedDefaultSorting
      else [mkSort sortValue
              (bool_decide (URLSearchParams.get directionParam searchParams
                            = Some "desc"))]
  end.

(** The parameters written by [onSortingChange] once it navigates. *)
Definition nextParamsFor (nextSorting : SortingState)
    (searchParamsString : string) : URLSearchParams.t :=
  let nextParams := URLSearchParams.new searchParamsString in
  if Nat.eqb (length nextSorting) 0 then
    URLSearchParams.delete directionParam
      (URLSearchParams.set sortParam SORT_NONE_SENTINEL nextParams)
  else if isSameSorting nextSorting normalizedDefaultSorting then
    URLSearchParams.delete directionParam
      (URLSearchParams.delete sortParam nextParams)
  else
    match nextSorting with
    | primary :: _ =>
        URLSearchParams.set directionParam
          (if desc primary then "desc" else "asc")
          (URLSearchParams.set sortParam (id primary) nextParams)
    | [] => nextParams
    end.

Definition onSortingChange (updater : Updater) (b : Browser) : Browser :=
  let current := sorting (searchParamsString b) in
  let nextSorting :=
    normalizeSorting (functionalUpdate updater current) allowedSet in
  if isSameSorting nextSorting current then b
  else
    let query :=
      URLSearchParams.toString (nextParamsFor nextSorting (searchParamsString b)) in
    mkBrowser query
      (replaced b ++
         [if str_truthy query then pathname +:+ "?" +:+ query else pathname]).

End Hook.

End UrlSorting.

(* ===================================================================== *)
(** * Auxiliary notions used by the statements *)
(* ===================================================================== *)

(** Every character of [s] satisfies [P]. *)
Fixpoint all_chars (P : ascii -> bool) (s : string) : bool :=
  match s with
  | EmptyString => true
  | String c s' => P c && all_chars P s'
  end.

(** The characters the serializer can emit for a name or a value. *)
Definition emitted (c : ascii) : bool :=
  URLSearchParams.unreserved c || Ascii.eqb c "+" || Ascii.eqb c "%".

(** The bound of [TResponse]: an object whose [status] is a number. *)
Definition is_response (v : JsVal) : bool :=
  match v with
  | JObj fs => typeof_number (obj_get "status" fs)
  | _ => false
  end.

(** The [{items, total}] shape, in the words of the specification: an object
    whose [items] is an array and whose [total] is a number. *)
Definition has_list_shape (data : JsVal) : Prop :=
  exists fs its t,
    data = JObj fs /\ obj_get "items" fs = JArr its /\ obj_get "total" fs = JNum t.

(** The identities of a list of items. *)
Definition identities (getItemId : JsVal -> string) (its : list JsVal) : list string :=
  List.map getItemId its.

(** The items that carry the identity [target]. *)
Definition matching (getItemId : JsVal -> string) (target : string)
    (its : list JsVal) : list JsVal :=
  List.filter (fun item => String.eqb (getItemId item) target) its.

(** The payload of the entry under [key], when it has one. *)
Definition payload_at (key : QueryKey) (c : QueryClient) : option ListDelete.ListPayload :=
  entries c !! key ≫= ListDelete.getListPayload.

(** "Exactly one item goes when the identity is present, and nothing changes
    when it is absent", for the payloads before and after one call. *)
Definition removes_at_most_one (getItemId : JsVal -> string) (target : string)
    (before after : ListDelete.ListPayload) : Prop :=
  (target ∈ identities getItemId (ListDelete.items before) ->
   (length (ListDelete.items after) + 1)%nat = length (ListDelete.items before))
  /\ (target ∉ identities getItemId (ListDelete.items before) ->
      ListDelete.items after = ListDelete.items before /\
      ListDelete.total after = ListDelete.total before).

(** Test data: items as in the module's tests, identified by their [id]. *)
Definition item_id (item : JsVal) : string :=
  match get_prop item "id" with JStr s => s | _ => "" end.

Definition mk_item (i label : string) : JsVal :=
  JObj [("id", JStr i); ("label", JStr label)].

Definition mk_response (its : list JsVal) (t : Z) : JsVal :=
  JObj [("status", JNum 200); ("data", JObj [("items", JArr its); ("total", JNum t)])].

Definition items_key : QueryKey := ["items"].
Definition boards_key : QueryKey := ["boards"].

Definition client_with (entry : JsVal) : QueryClient :=
  mkClient {[ items_key := entry ]} [].

(** Two cached items under one identity. *)
Definition twins : JsVal :=
  mk_response [mk_item "a" "A"; mk_item "a" "A again"; mk_item "b" "B"] 3.

(** A cached list whose [total] is below zero. *)
Definition overdrawn : JsVal := mk_response [mk_item "b" "B"] (-5).

Definition two_items : JsVal := mk_response [mk_item "a" "A"; mk_item "b" "B"] 2.

#[global] Instance ColumnSort_eq_dec : EqDecision UrlSorting.ColumnSort.
Proof. solve_decision. Defined.

(** The parameters that are not the controller's own. *)
Definition unrelated (sortP dirP : string) (params : URLSearchParams.t)
  : URLSearchParams.t :=
  List.filter
    (fun p => negb (String.eqb (fst p) sortP) && negb (String.eqb (fst p) dirP))
    params.

(** The parameters as a query string spells them: its pieces between [&],
    empty pieces apart, after the leading [?] that the constructor drops. *)
Definition pieces (qs : string) : list string :=
  List.filter URLSearchParams.nonempty
    (URLSearchParams.split_on "&"
       match qs with
       | String c s' => if Ascii.eqb c "?" then s' else qs
       | EmptyString => qs
       end).

(** Byte for byte: the pieces of [qs] whose name is not one of the
    controller's own two, as they are written. *)
Definition unrelated_bytes (sortP dirP : string) (qs : string) : list string :=
  List.filter
    (fun piece =>
       let name := fst (URLSearchParams.parse_pair piece) in
       negb (String.eqb name sortP) && negb (String.eqb name dirP))
    (pieces qs).

(** Normalization in the words of the specification: the first entry whose
    column is allow-listed, alone, or nothing. *)
Definition first_allowed (allowed : list string)
    (value : UrlSorting.SortingState) : UrlSorting.SortingState :=
  match List.find (fun s => bool_decide (UrlSorting.id s ∈ allowed)) value with
  | Some s => [s]
  | None => []
  end.

(** The read path as a case analysis on the two parameters, an empty sort
    parameter counting as an absent one. *)
Definition read_path (allowed : list string) (fallback : UrlSorting.SortingState)
    (sortValue dirValue : option string) : UrlSorting.SortingState :=
  match sortValue with
  | None => fallback
  | Some column =>
      if decide (column = "") then fallback
      else if decide (column = "none") then []
      else if decide (column ∈ allowed)
      then [UrlSorting.mkSort column (bool_decide (dirValue = Some "desc"))]
      else fallback
  end.

(** The same case analysis with "absent" as the only case before the
    sentinel. *)
Definition read_path_absent_only (allowed : list string)
    (fallback : UrlSorting.SortingState)
    (sortValue dirValue : option string) : UrlSorting.SortingState :=
  match sortValue with
  | None => fallback
  | Some column =>
      if decide (column = "none") then []
      else if decide (column ∈ allowed)
      then [UrlSorting.mkSort column (bool_decide (dirValue = Some "desc"))]
      else fallback
  end.

(** ** use-url-sorting.ts on concrete URLs *)

(** The hook of the agents page, as in the module's tests. *)
Definition agents_sorting : string -> UrlSorting.SortingState :=
  UrlSorting.sorting ["name"; "status"] (Some [UrlSorting.mkSort "name" false])
    (Some "agents").

Definition agents_change : UrlSorting.Updater -> UrlSorting.Browser -> UrlSorting.Browser :=
  UrlSorting.onSortingChange ["name"; "status"]
    (Some [UrlSorting.mkSort "name" false]) (Some "agents") "/agents".

(* ===================================================================== *)
(** * The pages that use the two modules *)
(* ===================================================================== *)

(** [app/boards/page.tsx] and the gateways page build their mutation with
    [createOptimisticListDeleteMutation], sort with [useUrlSorting], and
    render the list held by the cached response. *)
Module Pages.

(** The [boards] and [gateways] memos:
    [data?.status === 200 ? (data.data.items ?? []) : []].
    [None] stands for the [TypeError] of reading [items] off a [data] that is
    [null] or [undefined]. *)
Definition listed (data : JsVal) : option JsVal :=
  match data with
  | JUndefined | JNull => Some (JArr [])
  | _ =>
      if is_200 (get_prop data "status") then
        match get_prop data "data" with
        | JUndefined | JNull => None
        | inner =>
            Some (match get_prop inner "items" with
                  | JUndefined | JNull => JArr []
                  | its => its
                  end)
        end
      else Some (JArr [])
  end.

Definition BOARD_SORTABLE_COLUMNS : list string := ["name"; "group"; "updated_at"].
Definition GATEWAY_SORTABLE_COLUMNS : list string :=
  ["name"; "workspace_root"; "updated_at"].

(** [defaultSorting: [{ id: "name", desc: false }]] on both pages. *)
Definition pageDefaultSorting : option UrlSorting.SortingState :=
  Some [UrlSorting.mkSort "name" false].

End Pages.

(* ===================================================================== *)
(** * Board access of the organization page *)
(* ===================================================================== *)

(** The board access editor of the organization page and the access list it
    sends.  A [BoardAccessState] is a JavaScript object used as a map from
    board ids to entries; [Object.entries] is modelled by [map_to_list], whose
    order is the map's and not the insertion order. *)
Module BoardAccess.

Record Entry : Type := mkEntry { read : bool; write : bool }.

Abbreviation BoardAccessState := (gmap string Entry).

Record OrganizationBoardAccessSpec : Type := mkSpec {
  board_id : string;
  can_read : bool;
  can_write : bool
}.

Definition buildAccessList (access : BoardAccessState)
  : list OrganizationBoardAccessSpec :=
  List.map
    (fun '(boardId, entry) =>
       mkSpec boardId (read entry || write entry) (write entry))
    (List.filter (fun '(_, entry) => read entry || write entry)
                 (map_to_list access)).

(** An object that starts as [{}] and is filled by assignments: its own
    properties, and the object last assigned under [__proto__], which became
    its prototype. *)
Record AccessObject : Type := mkObject {
  own : BoardAccessState;
  proto : option Entry
}.

(** [o[key] = entry].  Under the key [__proto__] the assignment runs the
    setter that [o] inherits from [Object.prototype]: it replaces the
    prototype of [o] and gives [o] no own property.  Under every other key
    it sets the own property. *)
Definition assign (key : string) (entry : Entry) (o : AccessObject)
  : AccessObject :=
  if String.eqb key "__proto__" then mkObject (own o) (Some entry)
  else mkObject (<[key := entry]> (own o)) (proto o).

(** One turn of the loop of the [defaultAccess] memo. *)
Definition loadEntry (nextAccess : AccessObject)
    (entry : OrganizationBoardAccessSpec) : AccessObject :=
  assign (board_id entry)
    (mkEntry (can_read entry || can_write entry) (can_write entry))
    nextAccess.

(** The loop of the [defaultAccess] memo over [memberDetails.board_access]. *)
Definition loadAccess (board_access : list OrganizationBoardAccessSpec)
  : AccessObject :=
  foldl loadEntry (mkObject ∅ None) board_access.

(** What the editor shows and edits: the two all-boards flags and the map. *)
Record Editor : Type := mkEditor {
  allRead : bool;
  allWrite : bool;
  access : BoardAccessState
}.

Section Handlers.

Variable disabled : bool.

Definition handleAllReadToggle (e : Editor) : Editor :=
  if disabled then e
  else
    let next := negb (allRead e) in
    let e1 := mkEditor next (allWrite e) (access e) in
    if negb next && allWrite e then mkEditor (allRead e1) false (access e1)
    else e1.

Definition handleAllWriteToggle (e : Editor) : Editor :=
  if disabled then e
  else
    let next := negb (allWrite e) in
    let e1 := mkEditor (allRead e) next (access e) in
    if next && negb (allRead e) then mkEditor true (allWrite e1) (access e1)
    else e1.





End Handlers.

End BoardAccess.

(** ** Further notions used by the statements *)

(** Write access comes with read access. *)
Definition write_implies_read (entry : BoardAccess.Entry) : Prop :=
  BoardAccess.write entry = true -> BoardAccess.read entry = true.

(** How many pairs of [params] are under [name]. *)
Definition occurrences (name : string) (params : URLSearchParams.t) : nat :=
  length (List.filter (fun p => String.eqb (fst p) name) params).

(** A prefix that [resolveSortParam] takes into account. *)
Definition effective_prefix (paramPrefix : option string) : option string :=
  match paramPrefix with
  | Some p => if UrlSorting.str_truthy p then Some p else None
  | None => None
  end.

(** The last character of a string. *)
Fixpoint last_char (s : string) : option ascii :=
  match s with
  | EmptyString => None
  | String c s' =>
      match s' with
      | EmptyString => Some c
      | String _ _ => last_char s'
      end
  end.

(* ===================================================================== *)
(** * Facts about URLSearchParams *)
(* ===================================================================== *)

Section URLSearchParamsFacts.
Import URLSearchParams.

Lemma app_cons_s c (a b : string) : String c a +:+ b = String c (a +:+ b).
Proof. reflexivity. Qed.

Lemma app_nil_s (b : string) : "" +:+ b = b.
Proof. reflexivity. Qed.

Lemma app_assoc_s (a b c : string) : (a +:+ b) +:+ c = a +:+ (b +:+ c).
Proof.
  induction a as [|x a IH]; [done|].
  by rewrite !app_cons_s, IH.
Qed.

Lemma all_chars_app P s1 s2 :
  all_chars P (s1 +:+ s2) = all_chars P s1 && all_chars P s2.
Proof.
  induction s1 as [|c s1 IH]; [done|].
  rewrite app_cons_s. simpl. by rewrite IH, andb_assoc.
Qed.

Lemma urlencode_byte_emitted c : all_chars emitted (urlencode_byte c) = true.
Proof. destruct c as [[] [] [] [] [] [] [] []]; vm_compute; reflexivity. Qed.

Lemma urlencode_emitted s : all_chars emitted (urlencode s) = true.
Proof.
  induction s as [|c s IH]; simpl; [done|].
  by rewrite all_chars_app, urlencode_byte_emitted, IH.
Qed.

(** Decoding undoes the encoding of one byte, whatever follows it. *)
Lemma decode_urlencode_byte c rest :
  decode_component (urlencode_byte c +:+ rest) = String c (decode_component rest).
Proof. destruct c as [[] [] [] [] [] [] [] []]; reflexivity. Qed.

Lemma decode_urlencode s : decode_component (urlencode s) = s.
Proof.
  induction s as [|c s IH]; simpl; [done|].
  by rewrite decode_urlencode_byte, IH.
Qed.

(** Cutting at a separator that the first part does not contain. *)
Lemma split_first_app sep a b :
  all_chars (fun c => negb (Ascii.eqb c sep)) a = true ->
  split_first sep (a +:+ String sep b) = Some (a, b).
Proof.
  induction a as [|c a IH]; intros Ha.
  - rewrite app_nil_s. simpl. by rewrite Ascii.eqb_refl.
  - simpl in Ha. apply andb_true_iff in Ha as [Hc Ha].
    rewrite app_cons_s. simpl.
    apply negb_true_iff in Hc. rewrite Hc. by rewrite (IH Ha).
Qed.

Lemma split_on_clean sep a :
  all_chars (fun c => negb (Ascii.eqb c sep)) a = true ->
  split_on sep a = [a].
Proof.
  induction a as [|c a IH]; intros Ha; [done|].
  simpl in Ha. apply andb_true_iff in Ha as [Hc Ha].
  apply negb_true_iff in Hc. simpl. by rewrite Hc, (IH Ha).
Qed.

Lemma split_on_app sep a rest :
  all_chars (fun c => negb (Ascii.eqb c sep)) a = true ->
  split_on sep (a +:+ String sep rest) = a :: split_on sep rest.
Proof.
  induction a as [|c a IH]; intros Ha.
  - rewrite app_nil_s. simpl. by rewrite Ascii.eqb_refl.
  - simpl in Ha. apply andb_true_iff in Ha as [Hc Ha].
    apply negb_true_iff in Hc.
    rewrite app_cons_s. simpl. by rewrite Hc, (IH Ha).
Qed.

Lemma all_chars_impl (P R : ascii -> bool) s :
  (forall c, P c = true -> R c = true) ->
  all_chars P s = true -> all_chars R s = true.
Proof.
  intros HPR. induction s as [|c s IH]; simpl; [done|].
  intros [Hc Hs]%andb_true_iff. by rewrite (HPR _ Hc), (IH Hs).
Qed.

Lemma emitted_not c sep :
  emitted sep = false -> emitted c = true -> negb (Ascii.eqb c sep) = true.
Proof.
  intros Hsep Hc. apply negb_true_iff, Ascii.eqb_neq. congruence.
Qed.

Lemma urlencode_without sep s :
  emitted sep = false ->
  all_chars (fun c => negb (Ascii.eqb c sep)) (urlencode s) = true.
Proof.
  intros Hsep. eapply all_chars_impl; [|apply urlencode_emitted].
  intros c. by apply emitted_not.
Qed.

Lemma serialize_pair_without_amp p :
  all_chars (fun c => negb (Ascii.eqb c "&")) (serialize_pair p) = true.
Proof.
  unfold serialize_pair. rewrite all_chars_app. simpl.
  by rewrite !urlencode_without.
Qed.

Lemma serialize_pair_nonempty p : nonempty (serialize_pair p) = true.
Proof.
  unfold serialize_pair. by destruct (urlencode p.1).
Qed.

Lemma parse_serialize_pair p : parse_pair (serialize_pair p) = p.
Proof.
  destruct p as [n v]. unfold parse_pair, serialize_pair. simpl.
  rewrite split_first_app by by apply urlencode_without.
  by rewrite !decode_urlencode.
Qed.

(** Reading back what [toString] wrote. *)
Lemma parse_toString (params : t) : parse (toString params) = params.
Proof.
  unfold parse.
  induction params as [|p [|q rest] IH].
  - done.
  - cbn [toString]. rewrite split_on_clean by apply serialize_pair_without_amp.
    cbn [List.filter]. rewrite serialize_pair_nonempty.
    cbn [List.map]. by rewrite parse_serialize_pair.
  - change (toString (p :: q :: rest))
      with (serialize_pair p +:+ String "&" (toString (q :: rest))).
    rewrite split_on_app by apply serialize_pair_without_amp.
    cbn [List.filter]. rewrite serialize_pair_nonempty.
    cbn [List.map]. by rewrite parse_serialize_pair, IH.
Qed.

(** [toString] never starts with a question mark. *)
Lemma toString_head (params : t) :
  match toString params with
  | String c _ => Ascii.eqb c "?" = false
  | EmptyString => True
  end.
Proof.
  assert (Hp : forall p, match serialize_pair p with
                    | String c _ => Ascii.eqb c "?" = false
                    | EmptyString => True end).
  { intros [n v]. unfold serialize_pair. simpl.
    pose proof (urlencode_without "?" n eq_refl) as Hn.
    destruct (urlencode n) as [|c s]; [done|].
    rewrite app_cons_s. simpl in Hn.
    apply andb_true_iff in Hn as [Hc _]. by apply negb_true_iff in Hc. }
  destruct params as [|p [|q rest]]; [done| apply Hp |].
  change (toString (p :: q :: rest))
    with (serialize_pair p +:+ String "&" (toString (q :: rest))).
  specialize (Hp p). destruct (serialize_pair p) as [|c s]; [done|].
  by rewrite app_cons_s.
Qed.

Lemma new_toString (params : t) : new (toString params) = params.
Proof.
  unfold new. pose proof (toString_head params) as H.
  destruct (toString params) as [|c s] eqn:E.
  - by rewrite <- E, parse_toString.
  - rewrite H. by rewrite <- E, parse_toString.
Qed.

(** [get] after [set] and [delete]. *)
Lemma get_delete_eq name params : get name (delete name params) = None.
Proof.
  induction params as [|[n v] rest IH]; [done|].
  unfold delete in *. simpl.
  destruct (String.eqb n name) eqn:E; simpl; [done|]. by rewrite E.
Qed.

Lemma get_delete_ne name other params :
  name <> other -> get other (delete name params) = get other params.
Proof.
  intros Hne. induction params as [|[n v] rest IH]; [done|].
  unfold delete in *. simpl.
  destruct (String.eqb n name) eqn:E; simpl.
  - apply String.eqb_eq in E as ->.
    apply String.eqb_neq in Hne. by rewrite Hne.
  - by rewrite IH.
Qed.

Lemma get_set_eq name value params : get name (set name value params) = Some value.
Proof.
  induction params as [|[n v] rest IH]; simpl.
  - by rewrite String.eqb_refl.
  - destruct (String.eqb n name) eqn:E; simpl; by rewrite E.
Qed.

Lemma get_set_ne name other value params :
  name <> other -> get other (set name value params) = get other params.
Proof.
  intros Hne. induction params as [|[n v] rest IH]; simpl.
  - apply String.eqb_neq in Hne. by rewrite Hne.
  - destruct (String.eqb n name) eqn:E; simpl.
    + apply String.eqb_eq in E as ->.
      rewrite (proj2 (String.eqb_neq _ _) Hne). by apply get_delete_ne.
    + by rewrite IH.
Qed.

End URLSearchParamsFacts.

(* ===================================================================== *)
(** * list-delete.ts: properties *)
(* ===================================================================== *)

(** The numbers the module computes with. *)
Lemma number_zero : number_of_Z 0 = S754_zero false.
Proof. reflexivity. Qed.

Lemma number_200 : number_of_Z 200 = S754_finite false 7036874417766400 (-45).
Proof. vm_compute. reflexivity. Qed.

Lemma is_200_true : is_200 (JNum 200) = true.
Proof. vm_compute. reflexivity. Qed.

(** [v === 200] holds of the number 200 only. *)
Lemma is_200_inv v : is_200 v = true -> v = JNum 200.
Proof.
  destruct v as [| |?|n|?|?|?]; try discriminate.
  unfold is_200. rewrite number_200. unfold js_eq, SFeqb, SFcompare.
  destruct n as [s|s| |s m e]; try discriminate.
  - destruct s; discriminate.
  - destruct s; [discriminate|].
    destruct (Z.compare_spec e (-45)) as [->| |]; try discriminate.
    rewrite Pos.compare_cont_spec. unfold Pos.switch_Eq.
    destruct (Pos.compare_spec m 7036874417766400) as [->| |];
      [reflexivity|discriminate|discriminate].
Qed.

Lemma is_200_false v : v <> JNum 200 -> is_200 v = false.
Proof.
  intros Hne. destruct (is_200 v) eqn:E; [|reflexivity].
  by apply is_200_inv in E.
Qed.

Lemma js_sub_zero (t : JsNumber) : js_sub t 0 = t.
Proof. rewrite number_zero. destruct t as [[]|[]| |[] m e]; reflexivity. Qed.

(** [Math.max(0, v)] is never below zero. *)
Lemma js_max_not_below (v : JsNumber) : js_lt (js_max 0 v) 0 = false.
Proof. rewrite number_zero. destruct v as [[]|[]| |[] m e]; reflexivity. Qed.

(** [Math.max(0, t)] is [t] unless [t] is below zero or is [-0]. *)
Lemma js_max_fixed (t : JsNumber) :
  js_lt t 0 = false -> t <> S754_zero true -> js_max 0 t = t.
Proof.
  rewrite number_zero. unfold js_max, js_lt.
  destruct t as [[]|[]| |[] m e]; cbn; congruence.
Qed.

Lemma js_max_idem (v : JsNumber) : js_max 0 (js_max 0 v) = js_max 0 v.
Proof. rewrite number_zero. destruct v as [[]|[]| |[] m e]; reflexivity. Qed.

Lemma obj_get_set_eq k v fs : obj_get k (obj_set k v fs) = v.
Proof.
  induction fs as [|[k' v'] fs IH]; simpl.
  - by rewrite String.eqb_refl.
  - destruct (String.eqb k k') eqn:E; simpl; by rewrite E.
Qed.

Lemma obj_get_set_ne k k' v fs :
  k <> k' -> obj_get k' (obj_set k v fs) = obj_get k' fs.
Proof.
  intros Hne. induction fs as [|[k0 v0] fs IH]; simpl.
  - by rewrite (proj2 (String.eqb_neq k' k)).
  - destruct (String.eqb k k0) eqn:E; simpl; [|by rewrite IH].
    apply String.eqb_eq in E as <-.
    by rewrite (proj2 (String.eqb_neq k' k)).
Qed.

(** Writing back the value a property already has changes nothing. *)
Lemma obj_set_same k v fs :
  obj_get k fs = v -> v <> JUndefined -> obj_set k v fs = fs.
Proof.
  intros Hget Hv. induction fs as [|[k' v'] fs IH]; simpl in *; [congruence|].
  destruct (String.eqb k k'); [congruence|]. by rewrite IH.
Qed.

Lemma is_response_truthy v : is_response v = true -> truthy v = true.
Proof. by destruct v. Qed.

(** Past the test [!v || typeof v !== "object"], a value is an object or an
    array. *)
Lemma object_like v :
  negb (truthy v) || negb (typeof_object v) = false ->
  (exists fs, v = JObj fs) \/ (exists elems, v = JArr elems).
Proof. destruct v; simpl; rewrite ?orb_true_r; try done; eauto. Qed.

Lemma isListPayload_shape data :
  ListDelete.isListPayload data = true <-> has_list_shape data.
Proof.
  unfold ListDelete.isListPayload, has_list_shape. split.
  - destruct (negb (truthy data) || negb (typeof_object data)) eqn:E; [done|].
    apply object_like in E as [[fs ->]|[elems ->]]; simpl; [|done].
    destruct (obj_get "items" fs) as [| |?|?|?|its|?] eqn:Hi; simpl; try done.
    destruct (obj_get "total" fs) as [| |?|t|?|?|?] eqn:Ht; simpl; try done.
    intros _. by exists fs, its, t.
  - intros (fs & its & t & -> & Hi & Ht). simpl. by rewrite Hi, Ht.
Qed.

(** What [getListPayload] returns, and when. *)
Lemma getListPayload_Some response payload :
  ListDelete.getListPayload response = Some payload <->
  exists fs dfs,
    response = JObj fs /\ obj_get "data" fs = JObj dfs /\
    obj_get "items" dfs = JArr (ListDelete.items payload) /\
    obj_get "total" dfs = JNum (ListDelete.total payload) /\
    ListDelete.payload_fields payload = dfs.
Proof.
  unfold ListDelete.getListPayload, ListDelete.isListPayload, ListDelete.as_payload.
  split.
  - destruct (negb (truthy response) || negb (typeof_object response)) eqn:E;
      [done|].
    apply object_like in E as [[fs ->]|[elems ->]]; simpl; [|done].
    destruct (negb (truthy (obj_get "data" fs))
              || negb (typeof_object (obj_get "data" fs))) eqn:E; [done|].
    apply object_like in E as [[dfs Hd]|[elems Hd]]; rewrite Hd; simpl; [|done].
    destruct (obj_get "items" dfs) as [| |?|?|?|its|?] eqn:Hi; simpl; try done.
    destruct (obj_get "total" dfs) as [| |?|t|?|?|?] eqn:Ht; simpl; try done.
    intros [= <-]. by exists fs, dfs.
  - intros (fs & dfs & -> & Hd & Hi & Ht & Hf). simpl. rewrite Hd. simpl.
    rewrite Hi, Ht. simpl. destruct payload; simpl in *; by subst.
Qed.

Lemma getListPayload_None response :
  ~ has_list_shape (get_prop response "data") ->
  ListDelete.getListPayload response = None.
Proof.
  intros Hshape. unfold ListDelete.getListPayload.
  destruct (negb (truthy response) || negb (typeof_object response)); [done|].
  simpl. destruct (ListDelete.isListPayload _) eqn:E; [|done].
  by apply isListPayload_shape in E.
Qed.

Lemma getListPayload_rewritten prev payload nextItems removedCount :
  ListDelete.getListPayload (ListDelete.rewritten prev payload nextItems removedCount)
  = Some (ListDelete.mkPayload
            (obj_set "total"
               (JNum (js_max 0 (js_sub (ListDelete.total payload) removedCount)))
               (obj_set "items" (JArr nextItems) (ListDelete.payload_fields payload)))
            nextItems
            (js_max 0 (js_sub (ListDelete.total payload) removedCount))).
Proof.
  apply getListPayload_Some. eexists _, _. split; [reflexivity|].
  rewrite obj_get_set_eq. split; [reflexivity|]. simpl.
  rewrite obj_get_set_ne by done. rewrite !obj_get_set_eq. done.
Qed.

Lemma filter_split {A} (f : A -> bool) (l : list A) :
  (length (List.filter f l) + length (List.filter (fun x => negb (f x)) l))%nat
  = length l.
Proof.
  induction l as [|x l IH]; simpl; [done|].
  destruct (f x); simpl; lia.
Qed.

Lemma filter_all {A} (f : A -> bool) (l : list A) :
  (forall x, x ∈ l -> f x = true) -> List.filter f l = l.
Proof.
  induction l as [|x l IH]; simpl; intros H; [done|].
  rewrite (H x) by left. f_equal. apply IH. intros y Hy. apply H. by right.
Qed.

Lemma matching_nil getItemId target its :
  target ∉ identities getItemId its -> matching getItemId target its = [].
Proof.
  unfold matching, identities.
  induction its as [|x its IH]; simpl; intros H; [done|].
  apply not_elem_of_cons in H as [Hx H].
  destruct (String.eqb (getItemId x) target) eqn:E.
  - apply String.eqb_eq in E. congruence.
  - by apply IH.
Qed.

Lemma matching_one getItemId target its :
  NoDup (identities getItemId its) ->
  target ∈ identities getItemId its ->
  length (matching getItemId target its) = 1%nat.
Proof.
  unfold matching, identities.
  induction its as [|x its IH]; simpl; intros Hnd Hin.
  - by apply elem_of_nil in Hin.
  - apply NoDup_cons in Hnd as [Hx Hnd].
    destruct (String.eqb (getItemId x) target) eqn:E.
    + apply String.eqb_eq in E. subst target. simpl.
      pose proof (matching_nil getItemId (getItemId x) its Hx) as Hm.
      unfold matching in Hm. by rewrite Hm.
    + apply IH; [done|]. apply elem_of_cons in Hin as [Heq|Hin]; [|done].
      apply String.eqb_neq in E. congruence.
Qed.

Section ListDeleteProperties.
Import ListDelete.
Context {TVariables : Type}.
Variable queryKey : QueryKey.
Variable getItemId : JsVal -> string.
Variable getDeleteId : TVariables -> string.

Local Abbreviation onMutate := (ListDelete.onMutate queryKey getItemId getDeleteId).
Local Abbreviation onError := (ListDelete.onError queryKey).

(** The snapshot is always the entry read at the start. *)
Lemma onMutate_previous variables c :
  previous (onMutate variables c).1 = default JUndefined (entries c !! queryKey).
Proof.
  unfold ListDelete.onMutate, bind, getQueryData, cancelQueries, ret. simpl.
  destruct (truthy _ && is_200 _); [|done].
  by destruct (getListPayload _).
Qed.

(** The path without an optimistic step: only the cancellation is logged. *)
Lemma onMutate_skip variables c :
  let prev := default JUndefined (entries c !! queryKey) in
  truthy prev && is_200 (get_prop prev "status") = false
  \/ getListPayload prev = None ->
  onMutate variables c = (mkContext prev, record (CancelQueries queryKey) c).
Proof.
  intros prev H.
  unfold ListDelete.onMutate, bind, getQueryData, cancelQueries, ret. simpl.
  fold prev. destruct (truthy prev && is_200 _) eqn:E; [|done].
  destruct H as [H|H]; [done|]. by rewrite H.
Qed.

(** The optimistic path: one write of the rewritten entry. *)
Lemma onMutate_optimistic variables c prev payload :
  entries c !! queryKey = Some prev ->
  get_prop prev "status" = JNum 200 ->
  getListPayload prev = Some payload ->
  let nextItems :=
    List.filter (fun item => negb (String.eqb (getItemId item) (getDeleteId variables)))
                (items payload) in
  let removedCount :=
    Z.of_nat (length (items payload)) - Z.of_nat (length nextItems) in
  let entry := rewritten prev payload nextItems removedCount in
  onMutate variables c =
    (mkContext prev,
     mkClient (<[queryKey := entry]> (entries c))
              (calls c ++ [CancelQueries queryKey; SetQueryData queryKey entry])).
Proof.
  intros Hprev Hstatus Hpayload nextItems removedCount entry.
  unfold ListDelete.onMutate, bind, getQueryData, cancelQueries, ret. simpl.
  rewrite Hprev. cbn [default from_option id]. rewrite Hstatus, is_200_true.
  assert (truthy prev = true) as -> by (by destruct prev).
  cbn [andb]. rewrite Hpayload. unfold setQueryData, record. simpl.
  by rewrite <- app_assoc.
Qed.

(** A truthy snapshot is written back whole, in one call. *)
Lemma onError_writes ctx c :
  truthy (previous ctx) = true ->
  onError (Some ctx) c =
    (tt, mkClient (<[queryKey := previous ctx]> (entries c))
                  (calls c ++ [SetQueryData queryKey (previous ctx)])).
Proof.
  intros H. unfold ListDelete.onError. rewrite H.
  unfold setQueryData, record. by destruct (previous ctx).
Qed.

(** Rolling back straight after the optimistic step restores the whole
    cache, whatever the cache held. *)
Lemma onMutate_onError_entries variables c :
  let r := onMutate variables c in
  entries (onError (Some r.1) r.2).2 = entries c.
Proof.
  intros r. subst r.
  destruct (truthy (default JUndefined (entries c !! queryKey))
            && is_200 (get_prop (default JUndefined (entries c !! queryKey)) "status"))
    eqn:E.
  - apply andb_true_iff in E as [Ht H200].
    destruct (entries c !! queryKey) as [prev|] eqn:Hprev; [|done].
    simpl in Ht, H200.
    destruct (getListPayload prev) as [payload|] eqn:Hp.
    + rewrite (onMutate_optimistic variables c prev payload); try done.
      * cbn [fst snd]. rewrite onError_writes by done. simpl.
        rewrite insert_insert_eq. by apply insert_id.
      * by apply is_200_inv.
    + rewrite onMutate_skip by (right; by rewrite Hprev).
      rewrite Hprev. cbn [fst snd default]. rewrite onError_writes by done.
      simpl. by apply insert_id.
  - rewrite onMutate_skip by by left.
    destruct (entries c !! queryKey) as [prev|] eqn:Hprev; cbn [fst snd default].
    + destruct (truthy prev) eqn:Ht.
      * rewrite onError_writes by done. simpl. by apply insert_id.
      * unfold ListDelete.onError. simpl. by rewrite Ht.
    + done.
Qed.

(** C1 (amended).  For a cache entry with status 200 and a payload of the
    [{items, total}] shape, [onMutate] removes every item whose identity is
    the deletion target's: none when the identity is absent, at least one
    when it is present, exactly one when moreover the identities of the
    items are pairwise distinct.  It sets [total] to
    [Math.max(0, total - removedCount)], computed on numbers as the language
    has them (the difference is rounded to the nearest representable
    number), which is never below zero.  Deleting an identity that is absent
    leaves [items] unchanged and sets [total] to [Math.max(0, total)]:
    unchanged unless [total] was below zero or the negative zero, and then
    the entry as a whole is unchanged. *)
Theorem onMutate_removes_matching variables c prev payload :
  entries c !! queryKey = Some prev ->
  get_prop prev "status" = JNum 200 ->
  getListPayload prev = Some payload ->
  let target := getDeleteId variables in
  let ids := identities getItemId (items payload) in
  let removedCount :=
    Z.of_nat (length (matching getItemId target (items payload))) in
  let c' := (onMutate variables c).2 in
  exists payload',
    payload_at queryKey c' = Some payload' /\
    items payload' =
      List.filter (fun item => negb (String.eqb (getItemId item) target))
                  (items payload) /\
    Z.of_nat (length (items payload'))
      = Z.of_nat (length (items payload)) - removedCount /\
    total payload' = js_max 0 (js_sub (total payload) removedCount) /\
    js_lt (total payload') 0 = false /\
    (target ∉ ids ->
       removedCount = 0 /\ items payload' = items payload /\
       total payload' = js_max 0 (total payload) /\
       (js_lt (total payload) 0 = false -> total payload <> S754_zero true ->
        entries c' !! queryKey = Some prev)) /\
    (target ∈ ids -> 1 <= removedCount) /\
    (target ∈ ids -> NoDup ids -> removedCount = 1).
Proof.
  intros Hprev Hstatus Hpayload target ids removedCount c'.
  subst c'. rewrite (onMutate_optimistic variables c prev payload) by done.
  fold target. cbn [snd].
  set (nextItems := List.filter _ (items payload)).
  assert (Hsplit : (length (matching getItemId target (items payload))
                    + length nextItems)%nat = length (items payload))
    by apply filter_split.
  assert (Hcount : Z.of_nat (length (items payload)) - Z.of_nat (length nextItems)
                   = removedCount) by (subst removedCount; lia).
  rewrite Hcount.
  eexists. split.
  { unfold payload_at. cbn [entries]. rewrite lookup_insert_eq. simpl.
    apply getListPayload_rewritten. }
  cbn [items total].
  assert (Habs : target ∉ ids -> nextItems = items payload).
  { intros Habsent. apply filter_all. intros x Hx.
    apply negb_true_iff, String.eqb_neq. intros Heq. apply Habsent.
    subst ids. unfold identities. rewrite <- Heq.
    by apply list_elem_of_fmap_2. }
  split; [reflexivity|]. split; [lia|]. split; [reflexivity|].
  split; [apply js_max_not_below|]. split; [|split].
  - intros Habsent.
    pose proof (matching_nil getItemId target (items payload) Habsent) as Hm.
    assert (Hzero : removedCount = 0) by (subst removedCount; by rewrite Hm).
    split; [done|]. split; [by apply Habs|]. rewrite Hzero, js_sub_zero.
    split; [done|].
    intros Htotal Hsign. cbn [entries]. rewrite lookup_insert_eq. f_equal.
    apply getListPayload_Some in Hpayload
      as (fs & dfs & -> & Hd & Hi & Ht & Hf).
    unfold rewritten. rewrite (Habs Habsent), Hf.
    rewrite js_sub_zero, (js_max_fixed _ Htotal Hsign).
    cbn [spread payload_fields].
    rewrite (obj_set_same "items" _ dfs) by done.
    rewrite (obj_set_same "total" _ dfs) by done.
    by rewrite (obj_set_same "data" _ fs).
  - intros Hin. subst removedCount.
    destruct (matching getItemId target (items payload)) eqn:Hm; simpl; [|lia].
    exfalso. subst ids. unfold identities in Hin.
    apply list_elem_of_fmap in Hin as (x & Hx & Hin).
    assert (x ∈ matching getItemId target (items payload)) as Hmem.
    { unfold matching. apply list_elem_of_In, filter_In. split.
      - by apply list_elem_of_In.
      - by apply String.eqb_eq. }
    rewrite Hm in Hmem. by apply elem_of_nil in Hmem.
  - intros Hin Hnd. subst removedCount.
    by rewrite (matching_one getItemId target (items payload) Hnd Hin).
Qed.

(** C2.  For every mutation attempt whose context holds a previous snapshot
    (a cached response, an object as its type requires), [onError] writes
    that snapshot back as it is, in a single call: afterwards the entry
    under the query key is the entry that was there before [onMutate],
    whatever state [c] the cache reached in between, and no other entry
    changes. *)
Theorem onError_restores_snapshot variables c0 c :
  let ctx := (onMutate variables c0).1 in
  is_response (previous ctx) = true ->
  let c' := (onError (Some ctx) c).2 in
  entries c' !! queryKey = entries c0 !! queryKey /\
  entries c' = <[queryKey := previous ctx]> (entries c) /\
  calls c' = calls c ++ [SetQueryData queryKey (previous ctx)].
Proof.
  intros ctx Hresp c'. subst c'.
  apply is_response_truthy in Hresp as Ht.
  rewrite onError_writes by done. cbn [snd entries calls].
  repeat split. rewrite lookup_insert_eq.
  subst ctx. rewrite onMutate_previous in *.
  by destruct (entries c0 !! queryKey).
Qed.

(** C3.  When the entry under the query key is absent, or its status is not
    200, or its data does not have the [{items, total}] shape, [onMutate]
    writes nothing: the entries are as they were, the only call made on the
    client is the cancellation, and the returned context carries the entry
    that was present ([undefined] when there was none). *)
Theorem onMutate_skips_without_list variables c :
  let prev := default JUndefined (entries c !! queryKey) in
  entries c !! queryKey = None
  \/ get_prop prev "status" <> JNum 200
  \/ ~ has_list_shape (get_prop prev "data") ->
  let r := onMutate variables c in
  previous r.1 = prev /\
  entries r.2 = entries c /\
  calls r.2 = calls c ++ [CancelQueries queryKey] /\
  List.filter is_write (calls r.2) = List.filter is_write (calls c).
Proof.
  intros prev H r. subst r.
  rewrite onMutate_skip.
  - cbn [fst snd previous record entries calls]. repeat split.
    rewrite List.filter_app. simpl. by rewrite app_nil_r.
  - fold prev. destruct H as [H|[H|H]].
    + left. subst prev. by rewrite H.
    + left. apply andb_false_iff. right.
      by apply is_200_false.
    + right. by apply getListPayload_None.
Qed.

(** The loop of [onSettled]: one call for each key, in order. *)
Lemma for_of_invalidate keys c :
  for_of keys (fun key => invalidateQueries key) c
  = (tt, mkClient (entries c) (calls c ++ List.map InvalidateQueries keys)).
Proof.
  revert c. induction keys as [|k keys IH]; intros c.
  - simpl. unfold ret. rewrite app_nil_r. by destruct c.
  - cbn [for_of]. unfold bind. cbn [invalidateQueries].
    rewrite IH. unfold record. simpl. by rewrite <- app_assoc.
Qed.

(** C4 (amended).  [onSettled] makes one invalidation call for each entry of
    the configured list, in the order of the list, and nothing else: the
    entries of a non-empty [invalidateQueryKeys] when one is given, and the
    mutation's own [queryKey] alone when the list is absent or empty. *)
Theorem onSettled_invalidates_configured invalidateQueryKeys c :
  let configured :=
    match invalidateQueryKeys with
    | Some (key :: keys) => key :: keys
    | Some [] | None => [queryKey]
    end in
  let c' := (ListDelete.onSettled queryKey invalidateQueryKeys c).2 in
  calls c' = calls c ++ List.map InvalidateQueries configured /\
  entries c' = entries c.
Proof.
  intros configured c'. subst c'.
  unfold ListDelete.onSettled.
  assert (Hkeys : keysToInvalidate queryKey invalidateQueryKeys = configured).
  { unfold keysToInvalidate. by destruct invalidateQueryKeys as [[|k ks]|]. }
  rewrite Hkeys. by rewrite for_of_invalidate.
Qed.

End ListDeleteProperties.

(** ** list-delete.ts on concrete caches *)

(** The first test of the module: delete [a] from [a; b], then fail. *)
Example delete_then_error :
  let r := ListDelete.onMutate items_key item_id (fun v : string => v) "a"
             (client_with two_items) in
  entries r.2 !! items_key = Some (mk_response [mk_item "b" "B"] 1) /\
  entries (ListDelete.onError items_key (Some r.1) r.2).2 !! items_key
  = Some two_items.
Proof. split; vm_compute; reflexivity. Qed.

(** The second test: two configured keys, invalidated in order. *)
Example settle_two_keys :
  calls (ListDelete.onSettled items_key (Some [items_key; boards_key])
           (mkClient ∅ [])).2
  = [InvalidateQueries items_key; InvalidateQueries boards_key].
Proof. reflexivity. Qed.

Lemma onMutate_removes_matching_witness :
  exists payload',
    payload_at items_key
      (ListDelete.onMutate items_key item_id (fun v : string => v) "a"
         (client_with two_items)).2 = Some payload' /\
    ListDelete.items payload' = [mk_item "b" "B"] /\
    ListDelete.total payload' = 1.
Proof.
  edestruct (onMutate_removes_matching items_key item_id (fun v : string => v)
               "a" (client_with two_items) two_items)
    as (p & Hat & Hitems & _ & Htotal & _); [reflexivity..|].
  exists p. split; [exact Hat|]. split; [exact Hitems|exact Htotal].
Defined.

(** One call on a list holding two items of identity [a] removes both; and a
    call for an identity that is absent moves a negative [total] up to 0. *)
Lemma onMutate_removes_twins :
  let run target entry :=
    (ListDelete.onMutate items_key item_id (fun v : string => v) target
       (client_with entry)).2 in
  (exists before after,
     payload_at items_key (client_with twins) = Some before /\
     payload_at items_key (run "a" twins) = Some after /\
     length (ListDelete.items before) = 3%nat /\
     length (ListDelete.items after) = 1%nat /\
     ~ removes_at_most_one item_id "a" before after) /\
  (exists before after,
     payload_at items_key (client_with overdrawn) = Some before /\
     payload_at items_key (run "zzz" overdrawn) = Some after /\
     ListDelete.total before = -5 /\
     ListDelete.total after = 0 /\
     ~ removes_at_most_one item_id "zzz" before after).
Proof.
  split; eexists _, _.
  - split; [vm_compute; reflexivity|]. split; [vm_compute; reflexivity|].
    split; [reflexivity|]. split; [reflexivity|].
    intros [Hpresent _]. simpl in Hpresent.
    enough ((1 + 1)%nat = 3%nat) by lia. apply Hpresent. by left.
  - split; [vm_compute; reflexivity|]. split; [vm_compute; reflexivity|].
    split; [reflexivity|]. split; [reflexivity|].
    intros [_ Habsent]. simpl in Habsent.
    enough (H : number_of_Z 0 = number_of_Z (-5))
      by (vm_compute in H; discriminate H).
    apply Habsent.
    intros H. apply elem_of_cons in H as [H|H]; [done|].
    by apply elem_of_nil in H.
Qed.

Lemma onError_restores_snapshot_witness :
  let r := ListDelete.onMutate items_key item_id (fun v : string => v) "a"
             (client_with two_items) in
  entries (ListDelete.onError items_key (Some r.1) r.2).2 !! items_key
  = Some two_items.
Proof.
  intros r.
  destruct (onError_restores_snapshot items_key item_id (fun v : string => v)
              "a" (client_with two_items) r.2) as [H _]; [reflexivity|].
  exact H.
Defined.

Lemma onMutate_skips_without_list_witness :
  let r := ListDelete.onMutate items_key item_id (fun v : string => v) "a"
             (mkClient ∅ []) in
  ListDelete.previous r.1 = JUndefined /\
  entries r.2 = ∅ /\
  calls r.2 = [CancelQueries items_key].
Proof.
  intros r.
  destruct (onMutate_skips_without_list items_key item_id (fun v : string => v)
              "a" (mkClient ∅ [])) as (H1 & H2 & H3 & _); [left; reflexivity|].
  split; [exact H1|]. split; [exact H2|exact H3].
Defined.

(** Entries that are present and still left alone: a status other than 200,
    and a [data] that is not a list. *)
Example onMutate_skips_error_entry :
  let entry := JObj [("status", JNum 500); ("data", JObj [("items", JArr []); ("total", JNum 0)])] in
  let r := ListDelete.onMutate items_key item_id (fun v : string => v) "a"
             (client_with entry) in
  ListDelete.previous r.1 = entry /\ calls r.2 = [CancelQueries items_key].
Proof. split; reflexivity. Qed.

Example onMutate_skips_malformed :
  let entry := JObj [("status", JNum 200); ("data", JObj [("items", JStr "x"); ("total", JNum 0)])] in
  let r := ListDelete.onMutate items_key item_id (fun v : string => v) "a"
             (client_with entry) in
  ListDelete.previous r.1 = entry /\ calls r.2 = [CancelQueries items_key].
Proof. split; reflexivity. Qed.

(** An empty list of keys is given, and the mutation's own key is
    invalidated all the same. *)
Lemma onSettled_empty_list :
  calls (ListDelete.onSettled items_key (Some []) (mkClient ∅ [])).2
  = [InvalidateQueries items_key] /\
  calls (ListDelete.onSettled items_key (Some []) (mkClient ∅ [])).2
  <> List.map InvalidateQueries [].
Proof. split; [reflexivity|discriminate]. Qed.

(* ===================================================================== *)
(** * use-url-sorting.ts: properties *)
(* ===================================================================== *)

Section UrlSortingFacts.
Import UrlSorting.

Lemma sort_dir_distinct paramPrefix :
  resolveSortParam paramPrefix <> resolveDirectionParam paramPrefix.
Proof.
  unfold resolveSortParam, resolveDirectionParam.
  destruct paramPrefix as [p|]; [|done].
  destruct (str_truthy p); [|done].
  intros H. by apply (inj (String.app p)) in H.
Qed.

Lemma allowed_set_member (allowed : list string) x :
  bool_decide (x ∈ allowedSet allowed) = bool_decide (x ∈ allowed).
Proof. apply bool_decide_ext. unfold allowedSet. apply elem_of_list_to_set. Qed.

Lemma normalizeSorting_first_allowed allowed value :
  normalizeSorting value (allowedSet allowed) = first_allowed allowed value.
Proof.
  unfold first_allowed.
  induction value as [|s value IH]; simpl; [done|].
  rewrite allowed_set_member.
  destruct (bool_decide (id s ∈ allowed)); [by destruct s|done].
Qed.

Lemma normalizeSorting_short value allowedIds :
  (length (normalizeSorting value allowedIds) <= 1)%nat.
Proof.
  induction value as [|s value IH]; simpl; [lia|].
  destruct (bool_decide _); simpl; lia.
Qed.

Lemma normalizeSorting_allowed value allowedIds s :
  s ∈ normalizeSorting value allowedIds -> id s ∈ allowedIds.
Proof.
  induction value as [|x value IH]; simpl.
  - by intros ?%elem_of_nil.
  - destruct (bool_decide (id x ∈ allowedIds)) eqn:E; [|done].
    intros ->%list_elem_of_singleton. simpl. by apply bool_decide_eq_true in E.
Qed.

(** Normalizing keeps a state that is already normalized. *)
Lemma normalizeSorting_fixed value allowedIds :
  (length value <= 1)%nat ->
  (forall s, s ∈ value -> id s ∈ allowedIds) ->
  normalizeSorting value allowedIds = value.
Proof.
  destruct value as [|s [|s' rest]]; simpl; intros Hlen Hall; [done| |lia].
  rewrite bool_decide_eq_true_2 by (apply Hall; left). by destruct s.
Qed.

Lemma normalizeSorting_idem value allowedIds :
  normalizeSorting (normalizeSorting value allowedIds) allowedIds
  = normalizeSorting value allowedIds.
Proof.
  apply normalizeSorting_fixed; [apply normalizeSorting_short|].
  apply normalizeSorting_allowed.
Qed.

(** On states of at most one entry, [isSameSorting] is equality. *)
Lemma isSameSorting_eq a b :
  (length a <= 1)%nat -> (length b <= 1)%nat ->
  isSameSorting a b = true <-> a = b.
Proof.
  intros Ha Hb. unfold isSameSorting.
  destruct a as [|[ia da] [|? ?]], b as [|[ib db] [|? ?]];
    simpl in *; try lia; try done.
  split.
  - intros [Hid Hdesc]%andb_true_iff.
    apply bool_decide_eq_true in Hid. apply Bool.eqb_prop in Hdesc. congruence.
  - intros [= -> ->]. rewrite bool_decide_eq_true_2 by done.
    by rewrite Bool.eqb_reflx.
Qed.

Section Hook.
Variable allowedColumnIds : list string.
Variable defaultSorting : option SortingState.
Variable paramPrefix : option string.
Variable pathname : string.

Local Abbreviation sortP := (sortParam paramPrefix).
Local Abbreviation dirP := (directionParam paramPrefix).
Local Abbreviation ndef := (normalizedDefaultSorting allowedColumnIds defaultSorting).
Local Abbreviation sorting := (UrlSorting.sorting allowedColumnIds defaultSorting paramPrefix).
Local Abbreviation onSortingChange :=
  (UrlSorting.onSortingChange allowedColumnIds defaultSorting paramPrefix pathname).

Lemma sorting_short qs : (length (sorting qs) <= 1)%nat.
Proof.
  unfold UrlSorting.sorting.
  destruct (URLSearchParams.get _ _) as [v|];
    [|apply normalizeSorting_short].
  destruct (negb (str_truthy v)); [apply normalizeSorting_short|].
  destruct (String.eqb v SORT_NONE_SENTINEL); [simpl; lia|].
  destruct (negb _); [apply normalizeSorting_short|simpl; lia].
Qed.

Lemma sorting_allowed qs s :
  s ∈ sorting qs -> id s ∈ allowedSet allowedColumnIds.
Proof.
  unfold UrlSorting.sorting.
  destruct (URLSearchParams.get _ _) as [v|];
    [|apply normalizeSorting_allowed].
  destruct (negb (str_truthy v)); [apply normalizeSorting_allowed|].
  destruct (String.eqb v SORT_NONE_SENTINEL); [by intros ?%elem_of_nil|].
  destruct (bool_decide (v ∈ allowedSet allowedColumnIds)) eqn:E; simpl;
    [|apply normalizeSorting_allowed].
  intros ->%list_elem_of_singleton. simpl. by apply bool_decide_eq_true in E.
Qed.

(** The current sort state is its own normalization. *)
Lemma sorting_normalized qs :
  normalizeSorting (sorting qs) (allowedSet allowedColumnIds) = sorting qs.
Proof.
  apply normalizeSorting_fixed; [apply sorting_short|apply sorting_allowed].
Qed.

End Hook.
End UrlSortingFacts.

Section UnrelatedParameters.
Import URLSearchParams.
Variables sortP dirP : string.

Lemma unrelated_delete_own name params :
  name = sortP \/ name = dirP ->
  unrelated sortP dirP (delete name params) = unrelated sortP dirP params.
Proof.
  intros Hown. unfold unrelated, delete.
  induction params as [|[n v] rest IH]; simpl; [done|].
  destruct (String.eqb_spec n name) as [->|Hne]; simpl.
  - rewrite IH.
    destruct Hown as [->| ->]; rewrite String.eqb_refl; simpl;
      [done|by rewrite andb_false_r].
  - by rewrite IH.
Qed.

Lemma unrelated_set_own name value params :
  name = sortP \/ name = dirP ->
  unrelated sortP dirP (set name value params) = unrelated sortP dirP params.
Proof.
  intros Hown.
  assert (Hdrop :
    negb (String.eqb name sortP) && negb (String.eqb name dirP) = false).
  { destruct Hown as [->| ->]; rewrite String.eqb_refl; simpl;
      [done|by rewrite andb_false_r]. }
  induction params as [|[n v] rest IH]; simpl.
  - unfold unrelated. simpl. by rewrite Hdrop.
  - destruct (String.eqb_spec n name) as [->|Hne].
    + unfold unrelated at 1 2. simpl. rewrite Hdrop.
      by apply unrelated_delete_own.
    + unfold unrelated in *. simpl. by rewrite IH.
Qed.

Lemma get_app name (l1 l2 : t) :
  get name (l1 ++ l2) = match get name l1 with
                        | Some v => Some v
                        | None => get name l2
                        end.
Proof.
  induction l1 as [|[n v] l1 IH]; simpl; [done|].
  by destruct (String.eqb n name).
Qed.

Lemma delete_absent name params :
  get name params = None -> delete name params = params.
Proof.
  unfold delete. induction params as [|[n v] rest IH]; simpl; [done|].
  destruct (String.eqb n name); simpl; [done|]. intros H. by rewrite IH.
Qed.

Lemma set_absent name value params :
  get name params = None -> set name value params = params ++ [(name, value)].
Proof.
  induction params as [|[n v] rest IH]; simpl; [done|].
  destruct (String.eqb n name); simpl; [done|]. intros H. by rewrite IH.
Qed.

Lemma delete_app name (l1 l2 : t) :
  delete name (l1 ++ l2) = delete name l1 ++ delete name l2.
Proof. unfold delete. apply List.filter_app. Qed.

Lemma names_delete name params :
  (delete name params).*1 `sublist_of` params.*1.
Proof.
  unfold delete. induction params as [|[n v] rest IH]; simpl; [done|].
  destruct (String.eqb n name); simpl; by constructor.
Qed.

(** [set] on a list that holds the name: an update in place. *)
Lemma names_set_present name value params :
  get name params <> None ->
  (set name value params).*1 `sublist_of` params.*1.
Proof.
  induction params as [|[n v] rest IH]; simpl; [done|].
  destruct (String.eqb n name); simpl; intros H.
  - constructor. apply names_delete.
  - constructor. by apply IH.
Qed.

Lemma set_app_present name value (l1 l2 : t) :
  get name l1 <> None ->
  set name value (l1 ++ l2) = set name value l1 ++ delete name l2.
Proof.
  induction l1 as [|[n v] l1 IH]; simpl; [done|].
  destruct (String.eqb n name); simpl; intros H.
  - by rewrite delete_app.
  - by rewrite IH.
Qed.

End UnrelatedParameters.

Section UrlSortingProperties.
Import UrlSorting.
Variable allowedColumnIds : list string.
Variable defaultSorting : option SortingState.
Variable paramPrefix : option string.
Variable pathname : string.

Local Abbreviation sortP := (sortParam paramPrefix).
Local Abbreviation dirP := (directionParam paramPrefix).
Local Abbreviation allowed := (allowedSet allowedColumnIds).
Local Abbreviation ndef :=
  (normalizedDefaultSorting allowedColumnIds defaultSorting).
Local Abbreviation sorting :=
  (UrlSorting.sorting allowedColumnIds defaultSorting paramPrefix).
Local Abbreviation nextParamsFor :=
  (UrlSorting.nextParamsFor allowedColumnIds defaultSorting paramPrefix).
Local Abbreviation onSortingChange :=
  (UrlSorting.onSortingChange allowedColumnIds defaultSorting paramPrefix pathname).

Lemma own_distinct : sortP <> dirP.
Proof. apply sort_dir_distinct. Qed.

(** The read path once the sort parameter names a usable column. *)
Lemma sorting_column qs column :
  URLSearchParams.get sortP (URLSearchParams.new qs) = Some column ->
  column <> "" -> column <> SORT_NONE_SENTINEL -> column ∈ allowedColumnIds ->
  sorting qs =
    [mkSort column
       (bool_decide (URLSearchParams.get dirP (URLSearchParams.new qs)
                     = Some "desc"))].
Proof.
  intros Hget Hne Hsent Hin. unfold UrlSorting.sorting. rewrite Hget.
  unfold str_truthy.
  rewrite (proj2 (String.eqb_neq _ _) Hne).
  rewrite (proj2 (String.eqb_neq _ _) Hsent). simpl.
  rewrite allowed_set_member. by rewrite bool_decide_eq_true_2.
Qed.

(** The two ways [onSortingChange] can go. *)
Lemma onSortingChange_same updater b :
  normalizeSorting (functionalUpdate updater (sorting (searchParamsString b)))
    allowed = sorting (searchParamsString b) ->
  onSortingChange updater b = b.
Proof.
  intros Heq. unfold UrlSorting.onSortingChange. rewrite Heq.
  by rewrite (proj2 (isSameSorting_eq _ _ (sorting_short _ _ _ _)
                       (sorting_short _ _ _ _))).
Qed.

Lemma onSortingChange_differs updater b :
  let next :=
    normalizeSorting (functionalUpdate updater (sorting (searchParamsString b)))
      allowed in
  next <> sorting (searchParamsString b) ->
  let query := URLSearchParams.toString (nextParamsFor next (searchParamsString b)) in
  onSortingChange updater b =
    mkBrowser query
      (replaced b ++
         [if str_truthy query then pathname +:+ "?" +:+ query else pathname]).
Proof.
  intros next Hne query. unfold UrlSorting.onSortingChange. fold next.
  destruct (isSameSorting next _) eqn:E; [|done].
  apply isSameSorting_eq in E;
    [done|apply normalizeSorting_short|apply sorting_short].
Qed.

(** The three encodings. *)
Lemma nextParamsFor_empty qs :
  nextParamsFor [] qs =
    URLSearchParams.delete dirP
      (URLSearchParams.set sortP SORT_NONE_SENTINEL (URLSearchParams.new qs)).
Proof. reflexivity. Qed.

Lemma nextParamsFor_default s qs :
  [s] = ndef ->
  nextParamsFor [s] qs =
    URLSearchParams.delete dirP
      (URLSearchParams.delete sortP (URLSearchParams.new qs)).
Proof.
  intros Heq. unfold UrlSorting.nextParamsFor. cbn [length Nat.eqb].
  by rewrite (proj2 (isSameSorting_eq [s] ndef ltac:(simpl; lia)
                       (normalizeSorting_short _ _)) Heq).
Qed.

Lemma nextParamsFor_column s qs :
  [s] <> ndef ->
  nextParamsFor [s] qs =
    URLSearchParams.set dirP (if desc s then "desc" else "asc")
      (URLSearchParams.set sortP (id s) (URLSearchParams.new qs)).
Proof.
  intros Hne. unfold UrlSorting.nextParamsFor. cbn [length Nat.eqb].
  destruct (isSameSorting [s] ndef) eqn:E; [|done].
  apply isSameSorting_eq in E;
    [done|simpl; lia|apply normalizeSorting_short].
Qed.

(** Whatever is written, the other parameters stay. *)
Lemma unrelated_nextParamsFor next qs :
  unrelated sortP dirP (nextParamsFor next qs)
  = unrelated sortP dirP (URLSearchParams.new qs).
Proof.
  unfold UrlSorting.nextParamsFor.
  destruct (Nat.eqb (length next) 0).
  { rewrite unrelated_delete_own by by right.
    by rewrite unrelated_set_own by by left. }
  destruct (isSameSorting next ndef).
  { rewrite unrelated_delete_own by by right.
    by rewrite unrelated_delete_own by by left. }
  destruct next as [|primary rest]; [done|].
  rewrite unrelated_set_own by by right.
  by rewrite unrelated_set_own by by left.
Qed.

(** What [set] yields: the parameters that were there, the named one updated
    in place, then the new pair if the name was not there. *)
Lemma set_shape name value (params : URLSearchParams.t) :
  exists kept appended,
    URLSearchParams.set name value params = kept ++ appended /\
    kept.*1 `sublist_of` params.*1 /\
    (appended = []
     \/ appended = [(name, value)] /\ URLSearchParams.get name params = None).
Proof.
  destruct (URLSearchParams.get name params) eqn:E.
  - exists (URLSearchParams.set name value params), [].
    rewrite app_nil_r. split; [done|]. split; [|by left].
    apply names_set_present. by rewrite E.
  - exists params, [(name, value)]. split; [by apply set_absent|].
    split; [done|by right].
Qed.

(** The new parameters hold those of the query string first, in their order,
    the own ones updated in place or gone; own parameters that the query
    string did not hold come after them. *)
Lemma nextParamsFor_shape next qs :
  exists kept appended,
    nextParamsFor next qs = kept ++ appended /\
    kept.*1 `sublist_of` (URLSearchParams.new qs).*1 /\
    Forall (fun p => (p.1 = sortP \/ p.1 = dirP) /\
                     URLSearchParams.get p.1 (URLSearchParams.new qs) = None)
           appended.
Proof.
  pose proof own_distinct as Hdist.
  assert (Hsd : String.eqb sortP dirP = false) by by apply String.eqb_neq.
  set (params := URLSearchParams.new qs).
  assert (Hsort : forall value,
    exists kept appended,
      URLSearchParams.set sortP value params = kept ++ appended /\
      kept.*1 `sublist_of` params.*1 /\
      URLSearchParams.delete dirP appended = appended /\
      URLSearchParams.get dirP appended = None /\
      Forall (fun p => (p.1 = sortP \/ p.1 = dirP) /\
                       URLSearchParams.get p.1 params = None) appended).
  { intros value.
    destruct (set_shape sortP value params)
      as (kept & appended & Heq & Hsub & [->|[-> Habs]]).
    - exists kept, []. split; [done|]. split; [done|]. split; [done|].
      split; [done|]. apply Forall_nil_2.
    - exists kept, [(sortP, value)]. split; [done|]. split; [done|].
      split; [unfold URLSearchParams.delete; simpl; by rewrite Hsd|].
      split; [simpl; by rewrite Hsd|].
      apply Forall_singleton. simpl. split; [by left|done]. }
  unfold UrlSorting.nextParamsFor. fold params.
  destruct (Nat.eqb (length next) 0).
  { destruct (Hsort SORT_NONE_SENTINEL)
      as (kept & appended & -> & Hsub & Hdel & _ & Hall).
    exists (URLSearchParams.delete dirP kept), appended.
    rewrite delete_app, Hdel. split; [done|]. split; [|done].
    etrans; [apply names_delete|done]. }
  destruct (isSameSorting next ndef).
  { eexists _, []. rewrite app_nil_r. split; [done|].
    split; [|apply Forall_nil_2]. etrans; apply names_delete. }
  destruct next as [|primary rest].
  { exists params, []. rewrite app_nil_r. split; [done|].
    split; [done|apply Forall_nil_2]. }
  set (direction := if desc primary then "desc" else "asc").
  destruct (Hsort (id primary))
    as (kept & appended & Hset & Hsub & Hdel & Hget & Hall).
  destruct (URLSearchParams.get dirP params) eqn:Hdir.
  - assert (Hkept : URLSearchParams.get dirP kept <> None).
    { pose proof (get_set_ne sortP dirP (id primary) params Hdist) as H.
      rewrite Hset, get_app, Hget, Hdir in H. by destruct (URLSearchParams.get dirP kept). }
    exists (URLSearchParams.set dirP direction kept), appended.
    rewrite Hset, set_app_present, Hdel by done.
    split; [done|]. split; [|done].
    etrans; [by apply names_set_present|done].
  - exists kept, (appended ++ [(dirP, direction)]).
    rewrite set_absent by (by rewrite get_set_ne).
    rewrite Hset, <- app_assoc. split; [done|]. split; [done|].
    apply Forall_app. split; [done|].
    apply Forall_singleton. simpl. split; [by right|done].
Qed.

(** C5 (amended).  The read path is a total function of the query string,
    with this case analysis: when the sort parameter is absent or empty the
    result is the normalized default (the first allow-listed entry of the
    default, alone, or nothing); when it is the sentinel ["none"] the result
    is the empty sort state; when it names a column outside the allow-list
    the result is the normalized default; otherwise it is the single entry
    for that column, descending exactly when the direction parameter is
    ["desc"]. *)
Theorem sorting_case_analysis qs :
  sorting qs =
    read_path allowedColumnIds
      (first_allowed allowedColumnIds (default [] defaultSorting))
      (URLSearchParams.get sortP (URLSearchParams.new qs))
      (URLSearchParams.get dirP (URLSearchParams.new qs)).
Proof.
  unfold UrlSorting.sorting, read_path, normalizedDefaultSorting.
  rewrite normalizeSorting_first_allowed.
  destruct (URLSearchParams.get sortP _) as [column|]; [|done].
  unfold str_truthy, SORT_NONE_SENTINEL.
  destruct (String.eqb_spec column ""), (decide (column = ""));
    simpl; try done.
  destruct (String.eqb_spec column "none"), (decide (column = "none"));
    simpl; try done.
  rewrite allowed_set_member.
  destruct (decide (column ∈ allowedColumnIds)).
  - by rewrite bool_decide_eq_true_2.
  - by rewrite bool_decide_eq_false_2.
Qed.

(** C6 (amended).  Round trip: for a sort state [S] of one allow-listed
    entry whose column id is neither empty nor the sentinel ["none"], and
    which is not the normalized default, asking the write path for [S] and
    reading the resulting query string gives [S] back.  Either [S] was the
    current state already and nothing happened, or one navigation went to
    the path followed by the new query string. *)
Theorem write_then_read updater b column descending :
  let S := [mkSort column descending] in
  functionalUpdate updater (sorting (searchParamsString b)) = S ->
  column ∈ allowedColumnIds ->
  column <> "" ->
  column <> SORT_NONE_SENTINEL ->
  S <> ndef ->
  let b' := onSortingChange updater b in
  sorting (searchParamsString b') = S /\
  (b' = b \/
   replaced b' = replaced b ++ [pathname +:+ "?" +:+ searchParamsString b']).
Proof.
  intros S Hupd Hin Hne Hsent Hdef b'. subst b'.
  assert (Hnorm : normalizeSorting S allowed = S).
  { subst S. simpl. rewrite allowed_set_member.
    by rewrite bool_decide_eq_true_2. }
  destruct (decide (S = sorting (searchParamsString b))) as [Hcur|Hcur].
  - rewrite onSortingChange_same by (rewrite Hupd, Hnorm; done).
    split; [done|by left].
  - rewrite onSortingChange_differs by (rewrite Hupd, Hnorm; done).
    rewrite Hupd, Hnorm. cbn [searchParamsString replaced].
    subst S. rewrite nextParamsFor_column by done. cbn [id desc].
    set (params := URLSearchParams.set dirP _ _).
    assert (Hs : URLSearchParams.get sortP params = Some column).
    { subst params. rewrite get_set_ne by (pose proof own_distinct; congruence).
      apply get_set_eq. }
    assert (Hd : URLSearchParams.get dirP params
                 = Some (if descending then "desc" else "asc"))
      by apply get_set_eq.
    split.
    + rewrite (sorting_column _ column); rewrite ?new_toString; try done.
      rewrite Hd. by destruct descending.
    + right. f_equal. f_equal.
      destruct (URLSearchParams.toString params) eqn:E; [|done].
      pose proof (new_toString params) as Hnew. rewrite E in Hnew.
      by rewrite <- Hnew in Hs.
Qed.

(** C7.  When the normalization of the requested sort state is the current
    sort state, [onSortingChange] does nothing: no navigation, and the query
    string it holds is the one it held. *)
Theorem onSortingChange_noop updater b :
  normalizeSorting (functionalUpdate updater (sorting (searchParamsString b)))
    allowed = sorting (searchParamsString b) ->
  let b' := onSortingChange updater b in
  replaced b' = replaced b /\ searchParamsString b' = searchParamsString b.
Proof.
  intros Heq b'. subst b'. by rewrite onSortingChange_same.
Qed.

(** Setting the sort state to the current one is such a request. *)
Lemma onSortingChange_current b :
  onSortingChange (UValue (sorting (searchParamsString b))) b = b.
Proof. apply onSortingChange_same. simpl. apply sorting_normalized. Qed.

(** C8.  When the normalized next sort state differs from the current one,
    one navigation is made and the rewritten query string holds: (a) for an
    empty next state, the sort parameter set to ["none"] and no direction
    parameter; (b) for a non-empty next state equal to the normalized
    default, neither parameter; (c) otherwise the sort parameter set to the
    column id and the direction parameter set to ["desc"] or ["asc"] as the
    entry is descending or not. *)
Theorem onSortingChange_encoding updater b :
  let current := sorting (searchParamsString b) in
  let next := normalizeSorting (functionalUpdate updater current) allowed in
  next <> current ->
  let b' := onSortingChange updater b in
  let params := URLSearchParams.new (searchParamsString b) in
  let params' := URLSearchParams.new (searchParamsString b') in
  replaced b' =
    replaced b ++
      [if str_truthy (searchParamsString b')
       then pathname +:+ "?" +:+ searchParamsString b' else pathname] /\
  (next = [] ->
     params' = URLSearchParams.delete dirP
                 (URLSearchParams.set sortP "none" params) /\
     URLSearchParams.get sortP params' = Some "none" /\
     URLSearchParams.get dirP params' = None) /\
  (next <> [] -> next = ndef ->
     params' = URLSearchParams.delete dirP
                 (URLSearchParams.delete sortP params) /\
     URLSearchParams.get sortP params' = None /\
     URLSearchParams.get dirP params' = None) /\
  (forall column descending,
     next = [mkSort column descending] -> next <> ndef ->
     let direction := if descending then "desc" else "asc" in
     params' = URLSearchParams.set dirP direction
                 (URLSearchParams.set sortP column params) /\
     URLSearchParams.get sortP params' = Some column /\
     URLSearchParams.get dirP params' = Some direction).
Proof.
  intros current next Hne b' params params'. subst b' params'.
  pose proof own_distinct as Hdist.
  rewrite onSortingChange_differs by done. fold current next.
  cbn [searchParamsString replaced]. rewrite new_toString.
  split; [done|]. split; [|split].
  - intros ->. rewrite nextParamsFor_empty. fold params.
    split; [done|]. split.
    + rewrite get_delete_ne by congruence. apply get_set_eq.
    + apply get_delete_eq.
  - intros Hnonempty Hdef.
    pose proof (normalizeSorting_short (functionalUpdate updater current) allowed)
      as Hshort.
    fold next in Hshort.
    destruct next as [|s [|s' rest]]; [done| |simpl in Hshort; lia].
    rewrite nextParamsFor_default by done. fold params.
    split; [done|]. split.
    + rewrite get_delete_ne by congruence. apply get_delete_eq.
    + apply get_delete_eq.
  - intros column descending Hnext Hdef. rewrite Hnext in *.
    rewrite nextParamsFor_column by done. fold params. cbn [id desc].
    split; [done|]. split.
    + rewrite get_set_ne by congruence. apply get_set_eq.
    + apply get_set_eq.
Qed.

(** C9 (amended).  Frame: across [onSortingChange], the parameters other
    than the controller's own two keep their decoded names and values and
    their order; a navigation goes to the unchanged path, followed by [?]
    and the new query string when there is one; in the new query string the
    parameters that were there come first, in their order, while a parameter
    that was not there (one of the own two) comes after them; and the new
    query string of a navigation is the serializer's spelling of its
    parameters, whatever the spelling of the old one was. *)
Theorem onSortingChange_frame updater b :
  let b' := onSortingChange updater b in
  let params := URLSearchParams.new (searchParamsString b) in
  let params' := URLSearchParams.new (searchParamsString b') in
  unrelated sortP dirP params' = unrelated sortP dirP params /\
  (replaced b' = replaced b
   \/ replaced b' = replaced b ++ [pathname] /\ searchParamsString b' = ""
   \/ replaced b' = replaced b ++ [pathname +:+ "?" +:+ searchParamsString b']) /\
  (exists kept appended,
     params' = kept ++ appended /\
     kept.*1 `sublist_of` params.*1 /\
     Forall (fun p => (p.1 = sortP \/ p.1 = dirP) /\
                      URLSearchParams.get p.1 params = None) appended) /\
  (b' = b \/ searchParamsString b' = URLSearchParams.toString params').
Proof.
  intros b' params params'. subst b' params'.
  set (current := sorting (searchParamsString b)).
  set (next := normalizeSorting (functionalUpdate updater current) allowed).
  destruct (decide (next = current)) as [Heq|Hne].
  - rewrite onSortingChange_same by done. fold params.
    split; [done|]. split; [by left|]. split; [|by left].
    exists params, []. rewrite app_nil_r. split; [done|].
    split; [done|apply Forall_nil_2].
  - rewrite onSortingChange_differs by done. fold current next.
    cbn [searchParamsString replaced]. rewrite new_toString.
    split; [apply unrelated_nextParamsFor|]. split; [|split; [|by right]].
    + right. unfold str_truthy.
      destruct (String.eqb_spec (URLSearchParams.toString
                                   (nextParamsFor next (searchParamsString b))) "")
        as [->|_]; simpl; [by left|by right].
    + apply nextParamsFor_shape.
Qed.

(** C10 (amended).  On the read path, when the sort parameter is not empty,
    is not the sentinel ["none"] and names an allow-listed column, the
    result is the single entry for that column, and it is descending
    exactly when the direction parameter is the string ["desc"]: any other
    value, or no direction parameter at all, gives ascending order. *)
Theorem direction_is_exact qs column :
  URLSearchParams.get sortP (URLSearchParams.new qs) = Some column ->
  column <> "" ->
  column <> SORT_NONE_SENTINEL ->
  column ∈ allowedColumnIds ->
  let direction := URLSearchParams.get dirP (URLSearchParams.new qs) in
  (direction = Some "desc" -> sorting qs = [mkSort column true]) /\
  (direction <> Some "desc" -> sorting qs = [mkSort column false]).
Proof.
  intros Hget Hne Hsent Hin direction.
  rewrite (sorting_column qs column) by done. fold direction. split; intros H.
  - by rewrite bool_decide_eq_true_2.
  - by rewrite bool_decide_eq_false_2.
Qed.

End UrlSortingProperties.

Section UrlSortingScenarios.
Import UrlSorting.

Example read_default : agents_sorting "" = [mkSort "name" false].
Proof. vm_compute. reflexivity. Qed.

Example read_from_url :
  agents_sorting "agents_sort=status&agents_dir=desc" = [mkSort "status" true].
Proof. vm_compute. reflexivity. Qed.

Example read_invalid_column :
  agents_sorting "agents_sort=secret&agents_dir=desc" = [mkSort "name" false].
Proof. vm_compute. reflexivity. Qed.

Example write_keeps_unrelated :
  agents_change (UValue [mkSort "status" true]) (mkBrowser "foo=1" [])
  = mkBrowser "foo=1&agents_sort=status&agents_dir=desc"
      ["/agents?foo=1&agents_sort=status&agents_dir=desc"].
Proof. vm_compute. reflexivity. Qed.

Example write_default_collapses :
  agents_change (UValue [mkSort "name" false])
    (mkBrowser "foo=1&agents_sort=status&agents_dir=desc" [])
  = mkBrowser "foo=1" ["/agents?foo=1"].
Proof. vm_compute. reflexivity. Qed.

Example sentinel_is_stable :
  agents_sorting "agents_sort=none" = [] /\
  agents_change (UValue []) (mkBrowser "agents_sort=none" [])
  = mkBrowser "agents_sort=none" [].
Proof. split; vm_compute; reflexivity. Qed.

(** The value of an unrelated parameter survives; its spelling in the query
    string is the serializer's. *)
Example write_respells_unrelated :
  agents_change (UValue [mkSort "status" false]) (mkBrowser "q=a%20b&flag" [])
  = mkBrowser "q=a+b&flag=&agents_sort=status&agents_dir=asc"
      ["/agents?q=a+b&flag=&agents_sort=status&agents_dir=asc"].
Proof. vm_compute. reflexivity. Qed.

(** A navigation that keeps the unrelated parameters [q] and [flag], with
    their values, and does not keep them byte for byte: [q=a%20b] is written
    back as [q=a+b], and [flag] as [flag=]. *)
Lemma onSortingChange_respells :
  let b := mkBrowser "q=a%20b&flag" [] in
  let b' := agents_change (UValue [mkSort "status" false]) b in
  replaced b' = ["/agents?" +:+ searchParamsString b'] /\
  unrelated "agents_sort" "agents_dir" (URLSearchParams.new (searchParamsString b))
  = [("q", "a b"); ("flag", "")] /\
  unrelated "agents_sort" "agents_dir" (URLSearchParams.new (searchParamsString b'))
  = [("q", "a b"); ("flag", "")] /\
  unrelated_bytes "agents_sort" "agents_dir" (searchParamsString b)
  = ["q=a%20b"; "flag"] /\
  unrelated_bytes "agents_sort" "agents_dir" (searchParamsString b')
  = ["q=a+b"; "flag="] /\
  unrelated_bytes "agents_sort" "agents_dir" (searchParamsString b')
  <> unrelated_bytes "agents_sort" "agents_dir" (searchParamsString b).
Proof.
  intros b b'.
  split; [vm_compute; reflexivity|]. split; [vm_compute; reflexivity|].
  split; [vm_compute; reflexivity|]. split; [vm_compute; reflexivity|].
  split; [vm_compute; reflexivity|].
  intros H. vm_compute in H. discriminate H.
Qed.

(** Direction values that are not the string ["desc"]. *)
Example direction_values :
  agents_sorting "agents_sort=status&agents_dir=DESC" = [mkSort "status" false] /\
  agents_sorting "agents_sort=status&agents_dir=asc" = [mkSort "status" false] /\
  agents_sorting "agents_sort=status&agents_dir=descending" = [mkSort "status" false] /\
  agents_sorting "agents_sort=status&agents_dir=" = [mkSort "status" false] /\
  agents_sorting "agents_sort=status" = [mkSort "status" false].
Proof. repeat split; vm_compute; reflexivity. Qed.

(** An allow-list holding the empty column id: the empty sort parameter is
    present and allow-listed, and the read path returns the default. *)
Lemma empty_column_reads_default :
  let params := URLSearchParams.new "sort=&dir=desc" in
  URLSearchParams.get "sort" params = Some "" /\
  "" ∈ [""] /\
  sorting [""] None None "sort=&dir=desc" = [] /\
  sorting [""] None None "sort=&dir=desc"
  <> read_path_absent_only [""] (first_allowed [""] [])
       (URLSearchParams.get "sort" params) (URLSearchParams.get "dir" params).
Proof.
  repeat split; try (vm_compute; reflexivity).
  - by left.
  - vm_compute. discriminate.
Qed.

(** With the same allow-list, writing the entry for the empty column and
    reading the query string back gives the default, not the entry. *)
Lemma empty_column_round_trip :
  let S := [mkSort "" false] in
  let b' := onSortingChange [""] None None "/agents" (UValue S) (mkBrowser "" []) in
  "" ∈ [""] /\
  "" <> SORT_NONE_SENTINEL /\
  S <> normalizedDefaultSorting [""] None /\
  searchParamsString b' = "sort=&dir=asc" /\
  sorting [""] None None (searchParamsString b') = [] /\
  sorting [""] None None (searchParamsString b') <> S.
Proof.
  repeat split; try (vm_compute; reflexivity); try (vm_compute; discriminate).
  by left.
Qed.

(** With the same allow-list and a descending default, a direction other
    than ["desc"] comes with a descending result; and with the sentinel in the
    allow-list, the sort parameter ["none"] gives no entry at all. *)
Lemma empty_column_descends :
  let defaultSorting := Some [mkSort "" true] in
  let params := URLSearchParams.new "sort=&dir=asc" in
  (URLSearchParams.get "sort" params = Some "" /\
   "" ∈ [""] /\
   URLSearchParams.get "dir" params <> Some "desc" /\
   sorting [""] defaultSorting None "sort=&dir=asc" = [mkSort "" true]) /\
  (URLSearchParams.get "sort" (URLSearchParams.new "sort=none&dir=asc")
   = Some "none" /\
   "none" ∈ ["none"] /\
   sorting ["none"] None None "sort=none&dir=asc" = []).
Proof.
  repeat split; try (vm_compute; reflexivity); try (vm_compute; discriminate);
    by left.
Qed.

Lemma write_then_read_witness :
  let b' := agents_change (UValue [mkSort "status" true]) (mkBrowser "foo=1" []) in
  agents_sorting (searchParamsString b') = [mkSort "status" true].
Proof.
  intros b'.
  destruct (write_then_read ["name"; "status"] (Some [mkSort "name" false])
              (Some "agents") "/agents" (UValue [mkSort "status" true])
              (mkBrowser "foo=1" []) "status" true) as [H _].
  - reflexivity.
  - right; left.
  - discriminate.
  - discriminate.
  - vm_compute. discriminate.
  - exact H.
Defined.

Lemma onSortingChange_noop_witness :
  let b := mkBrowser "agents_sort=none" [] in
  replaced (agents_change (UValue []) b) = [] /\
  searchParamsString (agents_change (UValue []) b) = "agents_sort=none".
Proof.
  intros b.
  apply (onSortingChange_noop ["name"; "status"] (Some [mkSort "name" false])
           (Some "agents") "/agents" (UValue []) b).
  vm_compute. reflexivity.
Defined.

Lemma onSortingChange_encoding_witness :
  let b := mkBrowser "foo=1" [] in
  let b' := agents_change (UValue [mkSort "status" true]) b in
  URLSearchParams.get "agents_sort" (URLSearchParams.new (searchParamsString b'))
  = Some "status" /\
  URLSearchParams.get "agents_dir" (URLSearchParams.new (searchParamsString b'))
  = Some "desc".
Proof.
  intros b b'.
  destruct (onSortingChange_encoding ["name"; "status"]
              (Some [mkSort "name" false]) (Some "agents") "/agents"
              (UValue [mkSort "status" true]) b) as (_ & _ & _ & H).
  - vm_compute. discriminate.
  - destruct (H "status" true) as (_ & Hs & Hd).
    + vm_compute. reflexivity.
    + vm_compute. discriminate.
    + split; [exact Hs|exact Hd].
Defined.

Lemma direction_is_exact_witness :
  agents_sorting "agents_sort=status&agents_dir=DESC" = [mkSort "status" false].
Proof.
  destruct (direction_is_exact ["name"; "status"] (Some [mkSort "name" false])
              (Some "agents") "agents_sort=status&agents_dir=DESC" "status")
    as [_ H].
  - vm_compute. reflexivity.
  - discriminate.
  - discriminate.
  - right; left.
  - apply H. vm_compute. discriminate.
Defined.

End UrlSortingScenarios.

(* ===================================================================== *)
(** * list-delete.ts: further properties *)
(* ===================================================================== *)

Lemma obj_set_set k v v' fs : obj_set k v (obj_set k v' fs) = obj_set k v fs.
Proof.
  induction fs as [|[k' w] fs IH]; simpl.
  - by rewrite String.eqb_refl.
  - destruct (String.eqb k k') eqn:E; simpl; rewrite E; [done|]. by rewrite IH.
Qed.

Lemma filter_filter_comm {A} (f g : A -> bool) (l : list A) :
  List.filter f (List.filter g l) = List.filter g (List.filter f l).
Proof.
  induction l as [|x l IH]; simpl; [done|].
  destruct (f x) eqn:Ef, (g x) eqn:Eg; simpl; rewrite ?Ef, ?Eg, ?IH; done.
Qed.

Lemma filter_filter_same {A} (f : A -> bool) (l : list A) :
  List.filter f (List.filter f l) = List.filter f l.
Proof.
  induction l as [|x l IH]; simpl; [done|].
  destruct (f x) eqn:Ef; simpl; rewrite ?Ef, ?IH; done.
Qed.

Lemma filter_shorter {A} (f : A -> bool) (l : list A) :
  (length (List.filter f l) <= length l)%nat.
Proof. induction l as [|x l IH]; simpl; [lia|]. destruct (f x); simpl; lia. Qed.

Section ListDeleteFurther.
Import ListDelete.
Context {TVariables : Type}.
Variable queryKey : QueryKey.
Variable getItemId : JsVal -> string.
Variable getDeleteId : TVariables -> string.

Local Abbreviation onMutate := (ListDelete.onMutate queryKey getItemId getDeleteId).
Local Abbreviation onError := (ListDelete.onError queryKey).

(** The items that stay when [variables] names the identity to delete. *)
Local Abbreviation kept variables its :=
  (List.filter
     (fun item => negb (String.eqb (getItemId item) (getDeleteId variables))) its).

(** The entry is rewritten exactly when it is a response of status 200 with
    a list payload; otherwise the call only cancels. *)
Lemma onMutate_cases variables c :
  (exists prev payload,
     entries c !! queryKey = Some prev /\
     get_prop prev "status" = JNum 200 /\
     getListPayload prev = Some payload)
  \/ onMutate variables c
     = (mkContext (default JUndefined (entries c !! queryKey)),
        record (CancelQueries queryKey) c).
Proof.
  destruct (truthy (default JUndefined (entries c !! queryKey))
            && is_200 (get_prop (default JUndefined (entries c !! queryKey)) "status"))
    eqn:E.
  - apply andb_true_iff in E as [Ht H200].
    destruct (entries c !! queryKey) as [prev|] eqn:Hprev; [|done].
    simpl in Ht, H200.
    destruct (getListPayload prev) as [payload|] eqn:Hp.
    + left. exists prev, payload. split; [done|]. split; [|done].
      by apply is_200_inv.
    + right. rewrite <- Hprev. apply onMutate_skip. right. by rewrite Hprev.
  - right. apply onMutate_skip. by left.
Qed.

(** The status survives the rewrite. *)
Lemma rewritten_status prev payload nextItems removedCount :
  get_prop (rewritten prev payload nextItems removedCount) "status"
  = get_prop prev "status".
Proof.
  unfold rewritten. simpl. rewrite obj_get_set_ne by done. by destruct prev.
Qed.

(** The state after an optimistic step, ready for a further step. *)
Lemma onMutate_hit variables c prev payload :
  entries c !! queryKey = Some prev ->
  get_prop prev "status" = JNum 200 ->
  getListPayload prev = Some payload ->
  let c' := (onMutate variables c).2 in
  exists entry' payload',
    entries c' = <[queryKey := entry']> (entries c) /\
    get_prop entry' "status" = JNum 200 /\
    getListPayload entry' = Some payload' /\
    items payload' = kept variables (items payload) /\
    total payload'
    = js_max 0 (js_sub (total payload)
                  (number_of_Z
                     (Z.of_nat (length (items payload))
                      - Z.of_nat (length (kept variables (items payload)))))).
Proof.
  intros Hprev Hstatus Hpayload c'. subst c'.
  rewrite (onMutate_optimistic _ _ _ variables c prev payload) by done.
  cbn [snd entries]. eexists _, _. split; [reflexivity|].
  split; [by rewrite rewritten_status|].
  split; [apply getListPayload_rewritten|]. done.
Qed.

(** X1.  [getListPayload] yields a payload exactly for an object whose [data]
    is an object with an array [items] and a number [total]; [null], arrays,
    strings, numbers and [undefined] yield none, for the response and for
    its [data] alike.  The payload carries those items and that total. *)
Theorem getListPayload_defined response :
  (is_Some (getListPayload response) <->
   (exists fs, response = JObj fs) /\ has_list_shape (get_prop response "data"))
  /\ (forall payload,
        getListPayload response = Some payload ->
        get_prop (get_prop response "data") "items" = JArr (items payload) /\
        get_prop (get_prop response "data") "total" = JNum (total payload) /\
        payload_fields payload = spread (get_prop response "data")).
Proof.
  split; [split|].
  - intros [payload (fs & dfs & -> & Hd & Hi & Ht & _)%getListPayload_Some].
    split; [by exists fs|]. simpl. rewrite Hd.
    by exists dfs, (items payload), (total payload).
  - intros [[fs ->] (dfs & its & t & Hd & Hi & Ht)]. simpl in Hd.
    exists (mkPayload dfs its t). apply getListPayload_Some.
    by exists fs, dfs.
  - intros payload (fs & dfs & -> & Hd & Hi & Ht & Hf)%getListPayload_Some.
    simpl. rewrite Hd. simpl. by rewrite Hi, Ht, Hf.
Qed.

(** X2.  Whatever the cache holds, [onMutate] first cancels the queries of its
    key, then makes at most one write, under its own key; the entries under
    other keys stay, and the context carries the entry that was under the key
    before the call ([undefined] when there was none). *)
Theorem onMutate_protocol variables c :
  let r := onMutate variables c in
  previous r.1 = default JUndefined (entries c !! queryKey) /\
  (calls r.2 = calls c ++ [CancelQueries queryKey] /\ entries r.2 = entries c
   \/ exists entry,
        calls r.2 = calls c ++ [CancelQueries queryKey; SetQueryData queryKey entry]
        /\ entries r.2 = <[queryKey := entry]> (entries c)) /\
  (forall key, key <> queryKey -> entries r.2 !! key = entries c !! key).
Proof.
  intros r. subst r.
  destruct (onMutate_cases variables c)
    as [(prev & payload & Hprev & Hstatus & Hpayload)|Hskip].
  - rewrite (onMutate_optimistic _ _ _ variables c prev payload) by done.
    cbn [fst snd previous entries calls]. rewrite Hprev.
    split; [done|]. split; [right; by eexists|].
    intros key Hne. by rewrite lookup_insert_ne.
  - rewrite Hskip. cbn [fst snd previous entries calls record].
    split; [done|]. split; [by left|done].
Qed.

(** X3.  The optimistic rewrite touches [data.items] and [data.total] only:
    every other property of the response (its status among them) and every
    other property of its [data] reads as before. *)
Theorem onMutate_keeps_other_fields variables c prev payload :
  entries c !! queryKey = Some prev ->
  get_prop prev "status" = JNum 200 ->
  getListPayload prev = Some payload ->
  let c' := (onMutate variables c).2 in
  exists entry',
    entries c' !! queryKey = Some entry' /\
    (forall k, k <> "data" -> get_prop entry' k = get_prop prev k) /\
    (forall k, k <> "items" -> k <> "total" ->
       get_prop (get_prop entry' "data") k = get_prop (get_prop prev "data") k).
Proof.
  intros Hprev Hstatus Hpayload c'. subst c'.
  rewrite (onMutate_optimistic _ _ _ variables c prev payload) by done.
  cbn [snd entries]. eexists. split; [apply lookup_insert_eq|].
  apply getListPayload_Some in Hpayload as (fs & dfs & -> & Hd & Hi & Ht & Hf).
  unfold rewritten. simpl. split.
  - intros k Hk. by rewrite obj_get_set_ne.
  - intros k Hi' Ht'. rewrite obj_get_set_eq, Hd, Hf. simpl.
    by rewrite !obj_get_set_ne.
Qed.

(** X4.  Asking twice for the same deletion leaves the cache as asking once
    does: the second call finds nothing to remove and writes the entry it
    found. *)
Theorem onMutate_twice variables c :
  let c1 := (onMutate variables c).2 in
  entries (onMutate variables c1).2 = entries c1.
Proof.
  intros c1.
  destruct (onMutate_cases variables c1)
    as [(prev1 & payload1 & Hprev1 & Hstatus1 & Hpayload1)|Hskip];
    [|by rewrite Hskip].
  destruct (onMutate_cases variables c)
    as [(prev & payload & Hprev & Hstatus & Hpayload)|Hskip0].
  - subst c1.
    rewrite (onMutate_optimistic _ _ _ variables _ prev1 payload1) by done.
    cbn [snd entries]. apply insert_id. rewrite Hprev1. f_equal.
    rewrite (onMutate_optimistic _ _ _ variables c prev payload) in Hprev1 by done.
    cbn [snd entries] in Hprev1. rewrite lookup_insert_eq in Hprev1.
    injection Hprev1 as <-.
    rewrite getListPayload_rewritten in Hpayload1. injection Hpayload1 as <-.
    cbn [items total payload_fields].
    rewrite filter_filter_same, Z.sub_diag.
    apply getListPayload_Some in Hpayload as (fs & dfs & -> & Hd & Hi & Ht & Hf).
    unfold rewritten. cbn [spread items total payload_fields]. rewrite Hf.
    rewrite js_sub_zero, js_max_idem.
    set (its := JArr _). set (tot := JNum _).
    rewrite (obj_set_same "items" its (obj_set "total" tot (obj_set "items" its dfs)));
      [|by rewrite obj_get_set_ne, obj_get_set_eq|done].
    rewrite obj_set_set. by rewrite obj_set_set.
  - subst c1. rewrite Hskip0. cbn [snd].
    rewrite (onMutate_optimistic _ _ _ variables _ prev1 payload1); try done.
    + cbn [snd entries record]. apply insert_id.
      rewrite Hskip0 in Hprev1. cbn [snd entries record] in Hprev1.
      exfalso. revert Hskip0.
      rewrite (onMutate_optimistic _ _ _ variables c prev1 payload1) by done.
      intros [= _ _ Hcalls]. apply (f_equal length) in Hcalls.
      rewrite !length_app in Hcalls. simpl in Hcalls. lia.
    + by rewrite Hskip0 in Hprev1.
Qed.

(** X6.  Two deletions asked one after the other leave the same items in
    either order: the items of the list that carry neither identity, in
    their order.  Each step takes the number of items it removed from the
    [total] it found, in the arithmetic of numbers, and holds the result at
    zero or above. *)
Theorem onMutate_commutes v1 v2 c prev payload :
  entries c !! queryKey = Some prev ->
  get_prop prev "status" = JNum 200 ->
  getListPayload prev = Some payload ->
  let c12 := (onMutate v2 (onMutate v1 c).2).2 in
  let c21 := (onMutate v1 (onMutate v2 c).2).2 in
  exists p12 p21,
    payload_at queryKey c12 = Some p12 /\
    payload_at queryKey c21 = Some p21 /\
    items p12 = items p21 /\
    items p12 = kept v2 (kept v1 (items payload)) /\
    items p12
    = List.filter
        (fun item =>
           negb (String.eqb (getItemId item) (getDeleteId v1))
           && negb (String.eqb (getItemId item) (getDeleteId v2)))
        (items payload) /\
    total p12
    = js_max 0
        (js_sub
           (js_max 0
              (js_sub (total payload)
                 (number_of_Z
                    (Z.of_nat (length (items payload))
                     - Z.of_nat (length (kept v1 (items payload)))))))
           (number_of_Z
              (Z.of_nat (length (kept v1 (items payload)))
               - Z.of_nat (length (items p12))))).
Proof.
  intros Hprev Hstatus Hpayload c12 c21. subst c12 c21.
  assert (Hstep : forall va vb,
    exists p, payload_at queryKey (onMutate vb (onMutate va c).2).2 = Some p /\
      items p = kept vb (kept va (items payload)) /\
      total p
      = js_max 0
          (js_sub
             (js_max 0
                (js_sub (total payload)
                   (number_of_Z
                      (Z.of_nat (length (items payload))
                       - Z.of_nat (length (kept va (items payload)))))))
             (number_of_Z
                (Z.of_nat (length (kept va (items payload)))
                 - Z.of_nat (length (kept vb (kept va (items payload)))))))).
  { intros va vb.
    destruct (onMutate_hit va c prev payload Hprev Hstatus Hpayload)
      as (e1 & p1 & He1 & Hs1 & Hp1 & Hi1 & Ht1).
    destruct (onMutate_hit vb (onMutate va c).2 e1 p1)
      as (e2 & p2 & He2 & Hs2 & Hp2 & Hi2 & Ht2); try done.
    { rewrite He1. apply lookup_insert_eq. }
    exists p2. split.
    { unfold payload_at. rewrite He2, lookup_insert_eq. simpl. exact Hp2. }
    by rewrite Hi2, Ht2, Ht1, Hi1. }
  destruct (Hstep v1 v2) as (p12 & H12 & Hi12 & Ht12).
  destruct (Hstep v2 v1) as (p21 & H21 & Hi21 & Ht21).
  exists p12, p21. split; [done|]. split; [done|].
  split; [rewrite Hi12, Hi21; apply filter_filter_comm|].
  split; [done|]. split.
  - rewrite Hi12. clear. induction (items payload) as [|x l IH]; [done|].
    cbn [List.filter].
    destruct (negb (String.eqb (getItemId x) (getDeleteId v1))); cbn [andb];
      [|exact IH].
    cbn [List.filter].
    destruct (negb (String.eqb (getItemId x) (getDeleteId v2)));
      by rewrite IH.
  - by rewrite Ht12, Hi12.
Qed.

(** X5.  A mutation that fails leaves every cache entry as it was before the
    mutation began, whatever the cache held (no entry, an error response, a
    response without a list, or a list): [onError] undoes what [onMutate]
    wrote, and [onSettled] then only asks for the configured keys to be
    fetched again. *)
Theorem failed_mutation_restores_cache variables invalidateQueryKeys c :
  let r := onMutate variables c in
  let c2 := (onError (Some r.1) r.2).2 in
  let c3 := (ListDelete.onSettled queryKey invalidateQueryKeys c2).2 in
  entries c2 = entries c /\
  entries c3 = entries c /\
  calls c3
  = calls c2
    ++ List.map InvalidateQueries (keysToInvalidate queryKey invalidateQueryKeys) /\
  keysToInvalidate queryKey invalidateQueryKeys <> [].
Proof.
  intros r c2 c3. subst c3. unfold ListDelete.onSettled.
  rewrite for_of_invalidate. cbn [snd entries calls].
  assert (Hentries : entries c2 = entries c)
    by (subst c2 r; apply onMutate_onError_entries).
  split; [done|]. split; [done|]. split; [done|].
  unfold keysToInvalidate. by destruct invalidateQueryKeys as [[|k ks]|].
Qed.

End ListDeleteFurther.

Lemma onMutate_keeps_other_fields_witness :
  let entry :=
    JObj [("status", JNum 200);
          ("data", JObj [("items", JArr [mk_item "a" "A"; mk_item "b" "B"]);
                         ("total", JNum 2); ("limit", JNum 20)]);
          ("headers", JStr "h")] in
  let c' := (ListDelete.onMutate items_key item_id (fun v : string => v) "a"
               (client_with entry)).2 in
  exists entry',
    entries c' !! items_key = Some entry' /\
    get_prop entry' "headers" = JStr "h" /\
    get_prop (get_prop entry' "data") "limit" = JNum 20.
Proof.
  intros entry c'.
  edestruct (onMutate_keeps_other_fields items_key item_id (fun v : string => v)
               "a" (client_with entry) entry)
    as (entry' & Hat & Hresp & Hdata); [reflexivity..|].
  exists entry'. split; [exact Hat|]. split.
  - rewrite Hresp; [reflexivity|discriminate].
  - rewrite Hdata; [reflexivity|discriminate|discriminate].
Defined.

Lemma onMutate_commutes_witness :
  let run v1 v2 :=
    (ListDelete.onMutate items_key item_id (fun v : string => v) v2
       (ListDelete.onMutate items_key item_id (fun v : string => v) v1
          (client_with twins)).2).2 in
  exists p12 p21,
    payload_at items_key (run "a" "b") = Some p12 /\
    payload_at items_key (run "b" "a") = Some p21 /\
    ListDelete.items p12 = ListDelete.items p21 /\
    ListDelete.items p12 = [].
Proof.
  intros run.
  edestruct (onMutate_commutes items_key item_id (fun v : string => v) "a" "b"
               (client_with twins) twins)
    as (p12 & p21 & H12 & H21 & Hitems & Hkept & _); [reflexivity..|].
  exists p12, p21. split; [exact H12|]. split; [exact H21|].
  split; [exact Hitems|exact Hkept].
Defined.

(** The [total] does depend on the order: with the items [a], [b], [b] and
    a [total] of 2^53 + 2, removing [a] first rounds 2^53 + 1 down to 2^53
    and ends at 2^53 - 2, while removing [b] first ends at 2^53 - 1. *)
Example onMutate_total_depends_on_order :
  let entry :=
    mk_response [mk_item "a" "A"; mk_item "b" "B"; mk_item "b" "B again"]
      (2 ^ 53 + 2) in
  let run v1 v2 :=
    (ListDelete.onMutate items_key item_id (fun v : string => v) v2
       (ListDelete.onMutate items_key item_id (fun v : string => v) v1
          (client_with entry)).2).2 in
  (ListDelete.total <$> payload_at items_key (run "a" "b"))
  = Some (number_of_Z 9007199254740990) /\
  (ListDelete.total <$> payload_at items_key (run "b" "a"))
  = Some (number_of_Z 9007199254740991).
Proof. split; vm_compute; reflexivity. Qed.

(** A [total] that is not a number stays so. *)
Example onMutate_total_nan :
  let entry :=
    JObj [("status", JNum 200);
          ("data", JObj [("items", JArr [mk_item "a" "A"; mk_item "b" "B"]);
                         ("total", JNum S754_nan)])] in
  (ListDelete.total <$>
     payload_at items_key
       (ListDelete.onMutate items_key item_id (fun v : string => v) "a"
          (client_with entry)).2)
  = Some S754_nan.
Proof. vm_compute. reflexivity. Qed.

(** One step on a [total] of 2^53 + 2 writes 2^53: the difference 2^53 + 1
    is not a number and rounds to the nearest one. *)
Example onMutate_total_is_rounded :
  let entry := mk_response [mk_item "a" "A"; mk_item "b" "B"] (2 ^ 53 + 2) in
  (ListDelete.total <$>
     payload_at items_key
       (ListDelete.onMutate items_key item_id (fun v : string => v) "a"
          (client_with entry)).2)
  = Some (number_of_Z (2 ^ 53)).
Proof. vm_compute. reflexivity. Qed.


(* ===================================================================== *)
(** * use-url-sorting.ts: further properties *)
(* ===================================================================== *)

Lemma length_app_s (a b : string) :
  String.length (a +:+ b) = (String.length a + String.length b)%nat.
Proof. induction a as [|c a IH]; [done|]. rewrite app_cons_s. simpl. by rewrite IH. Qed.

Lemma app_inv_tail_s (a b s : string) : a +:+ s = b +:+ s -> a = b.
Proof.
  revert b. induction a as [|c a IH]; intros [|c' b] H.
  - done.
  - apply (f_equal String.length) in H.
    rewrite app_nil_s, app_cons_s in H. simpl in H.
    rewrite length_app_s in H. lia.
  - apply (f_equal String.length) in H.
    rewrite app_nil_s, app_cons_s in H. simpl in H.
    rewrite length_app_s in H. lia.
  - rewrite !app_cons_s in H. injection H as -> H. by rewrite (IH b H).
Qed.

Lemma last_char_app (a s : string) :
  s <> "" -> last_char (a +:+ s) = last_char s.
Proof.
  intros Hs. induction a as [|c a IH]; [done|].
  rewrite app_cons_s. simpl. rewrite IH.
  destruct (a +:+ s) eqn:E; [|done].
  apply (f_equal String.length) in E. rewrite length_app_s in E.
  destruct s; [done|]. simpl in E. lia.
Qed.

Lemma occurrences_delete_eq name params :
  occurrences name (URLSearchParams.delete name params) = 0%nat.
Proof.
  unfold occurrences, URLSearchParams.delete.
  induction params as [|[n v] rest IH]; simpl; [done|].
  destruct (String.eqb n name) eqn:E; simpl; [done|]. by rewrite E.
Qed.

Lemma occurrences_delete_ne name other params :
  name <> other ->
  occurrences other (URLSearchParams.delete name params) = occurrences other params.
Proof.
  intros Hne. unfold occurrences, URLSearchParams.delete.
  induction params as [|[n v] rest IH]; simpl; [done|].
  destruct (String.eqb_spec n name) as [->|Hn]; simpl.
  - by rewrite (proj2 (String.eqb_neq name other) Hne).
  - destruct (String.eqb n other); simpl; by rewrite IH.
Qed.

Lemma occurrences_set_eq name value params :
  occurrences name (URLSearchParams.set name value params) = 1%nat.
Proof.
  induction params as [|[n v] rest IH]; unfold occurrences in *; simpl.
  - by rewrite String.eqb_refl.
  - destruct (String.eqb n name) eqn:E; simpl; rewrite E; simpl.
    + f_equal. apply occurrences_delete_eq.
    + done.
Qed.

Lemma occurrences_set_ne name other value params :
  name <> other ->
  occurrences other (URLSearchParams.set name value params)
  = occurrences other params.
Proof.
  intros Hne. induction params as [|[n v] rest IH].
  - unfold occurrences. simpl. by rewrite (proj2 (String.eqb_neq name other) Hne).
  - simpl. destruct (String.eqb_spec n name) as [->|Hn].
    + unfold occurrences. simpl.
      rewrite (proj2 (String.eqb_neq name other) Hne).
      by apply occurrences_delete_ne.
    + unfold occurrences in *. simpl. destruct (String.eqb n other); simpl;
        by rewrite IH.
Qed.

Section NormalizationFurther.
Import UrlSorting.

(** X7.  [normalizeSorting] keeps the first entry of its input whose column is
    allow-listed and nothing else: the result has at most one entry; that
    entry stands in the input after entries that are all outside the
    allow-list; the result is empty exactly when no entry of the input is
    allow-listed; and normalizing again changes nothing. *)
Theorem normalizeSorting_first value (allowedIds : gset string) :
  let result := normalizeSorting value allowedIds in
  (length result <= 1)%nat /\
  (forall s, result = [s] ->
     id s ∈ allowedIds /\
     exists before after,
       value = before ++ s :: after /\
       forall x, x ∈ before -> id x ∉ allowedIds) /\
  (result = [] <-> forall x, x ∈ value -> id x ∉ allowedIds) /\
  normalizeSorting result allowedIds = result.
Proof.
  intros result. subst result.
  split; [apply normalizeSorting_short|].
  split; [|split; [|apply normalizeSorting_idem]].
  - induction value as [|x value IH]; simpl; [done|].
    destruct (bool_decide (id x ∈ allowedIds)) eqn:E.
    + intros s [= <-]. simpl. apply bool_decide_eq_true in E.
      split; [done|]. exists [], value. split; [by destruct x|].
      by intros ? ?%elem_of_nil.
    + intros s Hs. destruct (IH s Hs) as (Hin & before & after & -> & Hbefore).
      split; [done|]. exists (x :: before), after. split; [done|].
      intros y [->|Hy]%elem_of_cons; [|by apply Hbefore].
      by apply bool_decide_eq_false in E.
  - induction value as [|x value IH]; simpl.
    + split; [|done]. by intros _ ? ?%elem_of_nil.
    + destruct (bool_decide (id x ∈ allowedIds)) eqn:E.
      * split; [done|]. intros H. apply bool_decide_eq_true in E.
        exfalso. apply (H x); [by left|done].
      * rewrite IH. apply bool_decide_eq_false in E. split.
        -- intros H y [->|Hy]%elem_of_cons; [done|by apply H].
        -- intros H y Hy. apply H. by right.
Qed.

Lemma isSameSorting_refl a : isSameSorting a a = true.
Proof.
  unfold isSameSorting. rewrite Nat.eqb_refl. simpl.
  destruct (Nat.eqb (length a) 0); [done|].
  rewrite bool_decide_eq_true_2 by done. by rewrite Bool.eqb_reflx.
Qed.

(** X8.  [isSameSorting] is an equivalence on sort states of any length, and
    it looks at the lengths and at the first entries only: two states of the
    same length with the same first entry count as the same, whatever
    follows. *)
Theorem isSameSorting_equivalence :
  (forall a, isSameSorting a a = true) /\
  (forall a b, isSameSorting a b = isSameSorting b a) /\
  (forall a b c,
     isSameSorting a b = true -> isSameSorting b c = true ->
     isSameSorting a c = true) /\
  (forall s rest rest',
     length rest = length rest' ->
     isSameSorting (s :: rest) (s :: rest') = true) /\
  (forall a b, isSameSorting a b = true -> length a = length b /\ head a = head b).
Proof.
  assert (Hchar : forall a b,
    isSameSorting a b = true <-> length a = length b /\ head a = head b).
  { intros a b. unfold isSameSorting.
    destruct (Nat.eqb_spec (length a) (length b)) as [Hlen|Hlen]; simpl;
      [|split; [done|by intros [? _]]].
    destruct a as [|[ia da] a], b as [|[ib db] b]; simpl in *; try done.
    split.
    - intros [Hid Hdesc]%andb_true_iff.
      apply bool_decide_eq_true in Hid. apply Bool.eqb_prop in Hdesc.
      split; [done|]. congruence.
    - intros [_ [= -> ->]]. rewrite bool_decide_eq_true_2 by done.
      by rewrite Bool.eqb_reflx. }
  split; [apply isSameSorting_refl|]. split; [|split; [|split]].
  - intros a b. destruct (isSameSorting a b) eqn:Eab.
    + symmetry. apply Hchar. apply Hchar in Eab as [-> ->]. done.
    + destruct (isSameSorting b a) eqn:Eba; [|done].
      apply Hchar in Eba as [Hl Hh].
      assert (isSameSorting a b = true) by (apply Hchar; by rewrite Hl, Hh).
      congruence.
  - intros a b c [Hl1 Hh1]%Hchar [Hl2 Hh2]%Hchar. apply Hchar.
    split; congruence.
  - intros s rest rest' Hlen. apply Hchar. simpl. by rewrite Hlen.
  - intros a b. apply Hchar.
Qed.

(** The four facts about the names of two controllers. *)
Lemma parameter_names_helper p q :
  resolveSortParam p <> resolveDirectionParam q /\
  (resolveSortParam p = resolveSortParam q ->
   effective_prefix p = effective_prefix q) /\
  resolveDirectionParam p <> resolveSortParam q /\
  (resolveDirectionParam p = resolveDirectionParam q ->
   effective_prefix p = effective_prefix q).
Proof.
  assert (Hs : forall p, resolveSortParam p
                         = default "" (effective_prefix p)
                           +:+ (match effective_prefix p with Some _ => "_sort" | None => "sort" end)).
  { intros [r|]; simpl; [|done]. unfold effective_prefix.
    by destruct (str_truthy r). }
  assert (Hd : forall p, resolveDirectionParam p
                         = default "" (effective_prefix p)
                           +:+ (match effective_prefix p with Some _ => "_dir" | None => "dir" end)).
  { intros [r|]; simpl; [|done]. unfold effective_prefix.
    by destruct (str_truthy r). }
  rewrite !Hs, !Hd.
  destruct (effective_prefix p) as [x|], (effective_prefix q) as [y|]; simpl.
  - split; [|split; [|split]].
    + intros H. apply (f_equal last_char) in H. by rewrite !last_char_app in H.
    + by intros ->%app_inv_tail_s.
    + intros H. apply (f_equal last_char) in H. by rewrite !last_char_app in H.
    + by intros ->%app_inv_tail_s.
  - split; [|split; [|split]]; intros H.
    + apply (f_equal last_char) in H. by rewrite !last_char_app in H.
    + apply (f_equal String.length) in H.
      rewrite !length_app_s in H. simpl in H. lia.
    + apply (f_equal last_char) in H. by rewrite !last_char_app in H.
    + apply (f_equal String.length) in H.
      rewrite !length_app_s in H. simpl in H. lia.
  - split; [|split; [|split]]; intros H.
    + apply (f_equal last_char) in H. by rewrite !last_char_app in H.
    + apply (f_equal String.length) in H.
      rewrite !length_app_s in H. simpl in H. lia.
    + apply (f_equal last_char) in H. by rewrite !last_char_app in H.
    + apply (f_equal String.length) in H.
      rewrite !length_app_s in H. simpl in H. lia.
  - by repeat split.
Qed.

(** X12.  The parameter names: a sort name is never a direction name, for
    one controller or for two; two controllers share a name exactly when
    their prefixes are the same, an empty prefix counting as none. *)
Theorem parameter_names paramPrefix paramPrefix' :
  resolveSortParam paramPrefix <> resolveDirectionParam paramPrefix' /\
  (resolveSortParam paramPrefix = resolveSortParam paramPrefix' <->
   effective_prefix paramPrefix = effective_prefix paramPrefix') /\
  (resolveDirectionParam paramPrefix = resolveDirectionParam paramPrefix' <->
   effective_prefix paramPrefix = effective_prefix paramPrefix').
Proof.
  destruct (parameter_names_helper paramPrefix paramPrefix')
    as (H1 & H2 & _ & H4).
  assert (Heq : effective_prefix paramPrefix = effective_prefix paramPrefix' ->
                resolveSortParam paramPrefix = resolveSortParam paramPrefix' /\
                resolveDirectionParam paramPrefix
                = resolveDirectionParam paramPrefix').
  { unfold effective_prefix, resolveSortParam, resolveDirectionParam.
    destruct paramPrefix as [p|], paramPrefix' as [q|]; simpl;
      repeat match goal with
             | |- context [str_truthy ?x] => destruct (str_truthy x)
             end; try done; by intros [= ->]. }
  split; [done|]. split; split; try done; intros H; by apply Heq.
Qed.

End NormalizationFurther.

Section HookFurther.
Import UrlSorting.
Variable allowedColumnIds : list string.
Variable defaultSorting : option SortingState.
Variable paramPrefix : option string.
Variable pathname : string.

Local Abbreviation sortP := (sortParam paramPrefix).
Local Abbreviation dirP := (directionParam paramPrefix).
Local Abbreviation allowed := (allowedSet allowedColumnIds).
Local Abbreviation ndef :=
  (normalizedDefaultSorting allowedColumnIds defaultSorting).
Local Abbreviation sorting :=
  (UrlSorting.sorting allowedColumnIds defaultSorting paramPrefix).
Local Abbreviation nextParamsFor :=
  (UrlSorting.nextParamsFor allowedColumnIds defaultSorting paramPrefix).
Local Abbreviation onSortingChange :=
  (UrlSorting.onSortingChange allowedColumnIds defaultSorting paramPrefix pathname).

(** Reading a query string whose sort parameter is missing, or is the
    sentinel. *)
Lemma sorting_absent qs :
  URLSearchParams.get sortP (URLSearchParams.new qs) = None -> sorting qs = ndef.
Proof. intros H. unfold UrlSorting.sorting. by rewrite H. Qed.

Lemma sorting_sentinel qs :
  URLSearchParams.get sortP (URLSearchParams.new qs) = Some SORT_NONE_SENTINEL ->
  sorting qs = [].
Proof. intros H. unfold UrlSorting.sorting. by rewrite H. Qed.

(** What is read back after a write, for a request that the query string
    can carry. *)
Lemma read_after_write updater b :
  let next :=
    normalizeSorting (functionalUpdate updater (sorting (searchParamsString b)))
      allowed in
  (forall s, s ∈ next ->
     next = ndef \/ (id s <> "" /\ id s <> SORT_NONE_SENTINEL)) ->
  sorting (searchParamsString (onSortingChange updater b)) = next.
Proof.
  intros next Hcarry.
  pose proof (own_distinct paramPrefix) as Hdist.
  destruct (decide (next = sorting (searchParamsString b))) as [Heq|Hne].
  { by rewrite onSortingChange_same. }
  rewrite onSortingChange_differs by done. fold next.
  cbn [searchParamsString].
  pose proof (normalizeSorting_short
                (functionalUpdate updater (sorting (searchParamsString b)))
                allowed) as Hshort.
  fold next in Hshort.
  assert (Hallowed : forall s, s ∈ next -> id s ∈ allowedColumnIds).
  { intros s Hs. apply normalizeSorting_allowed in Hs.
    unfold allowedSet in Hs. by apply elem_of_list_to_set in Hs. }
  destruct next as [|s [|s' rest]]; [| |simpl in Hshort; lia].
  - apply sorting_sentinel. rewrite new_toString, nextParamsFor_empty.
    rewrite get_delete_ne by congruence. apply get_set_eq.
  - destruct (decide ([s] = ndef)) as [Hdef|Hdef].
    + rewrite Hdef at 2. apply sorting_absent.
      rewrite new_toString, nextParamsFor_default by done.
      rewrite get_delete_ne by congruence. apply get_delete_eq.
    + destruct (Hcarry s) as [?|[Hne' Hsent]]; [by left|done|].
      set (params := nextParamsFor [s] (searchParamsString b)).
      assert (Hs : URLSearchParams.get sortP params = Some (id s)).
      { subst params. rewrite nextParamsFor_column by done.
        rewrite get_set_ne by congruence. apply get_set_eq. }
      assert (Hd : URLSearchParams.get dirP params
                   = Some (if desc s then "desc" else "asc")).
      { subst params. rewrite nextParamsFor_column by done. apply get_set_eq. }
      rewrite (sorting_column _ _ _ _ (id s)); rewrite ?new_toString; try done.
      * rewrite Hd. by destruct s as [i []].
      * apply Hallowed. by left.
Qed.

(** A name that is not the controller's reads the same after a write. *)
Lemma get_nextParamsFor_other name next qs :
  name <> sortP -> name <> dirP ->
  URLSearchParams.get name (nextParamsFor next qs)
  = URLSearchParams.get name (URLSearchParams.new qs).
Proof.
  intros Hs Hd. unfold UrlSorting.nextParamsFor.
  destruct (Nat.eqb (length next) 0).
  { rewrite get_delete_ne by congruence. by rewrite get_set_ne by congruence. }
  destruct (isSameSorting next ndef).
  { rewrite get_delete_ne by congruence. by rewrite get_delete_ne by congruence. }
  destruct next as [|primary rest]; [done|].
  rewrite get_set_ne by congruence. by rewrite get_set_ne by congruence.
Qed.

(** X9.  What the hook reads from a query string, whatever the string, is a
    normalized sort state: at most one entry, on an allow-listed column, and
    a fixed point of [normalizeSorting]. *)
Theorem sorting_is_normalized qs :
  (length (sorting qs) <= 1)%nat /\
  (forall s, s ∈ sorting qs -> id s ∈ allowedColumnIds) /\
  normalizeSorting (sorting qs) allowed = sorting qs.
Proof.
  split; [apply sorting_short|]. split; [|apply sorting_normalized].
  intros s Hs. apply sorting_allowed in Hs.
  unfold allowedSet in Hs. by apply elem_of_list_to_set in Hs.
Qed.

(** X10.  What is set is what is read: when the normalized request is empty,
    or is the normalized default, or names a column that is neither empty nor
    the sentinel, the state read from the query string after
    [onSortingChange] is the normalized request, and asking for it once more
    changes nothing and navigates no further. *)
Theorem onSortingChange_then_read updater b :
  let next :=
    normalizeSorting (functionalUpdate updater (sorting (searchParamsString b)))
      allowed in
  (forall s, s ∈ next ->
     next = ndef \/ (id s <> "" /\ id s <> SORT_NONE_SENTINEL)) ->
  let b' := onSortingChange updater b in
  sorting (searchParamsString b') = next /\
  onSortingChange (UValue next) b' = b'.
Proof.
  intros next Hcarry b'.
  assert (Hread : sorting (searchParamsString b') = next)
    by by apply read_after_write.
  split; [done|]. apply onSortingChange_same. simpl. rewrite Hread.
  apply normalizeSorting_idem.
Qed.

(** X11.  A navigation leaves each of the two own parameters at most once in
    the query string, however often the old query string repeated them. *)
Theorem onSortingChange_single_parameters updater b :
  let next :=
    normalizeSorting (functionalUpdate updater (sorting (searchParamsString b)))
      allowed in
  next <> sorting (searchParamsString b) ->
  let params' :=
    URLSearchParams.new (searchParamsString (onSortingChange updater b)) in
  (occurrences sortP params' <= 1)%nat /\ (occurrences dirP params' <= 1)%nat.
Proof.
  intros next Hne params'. subst params'.
  pose proof (own_distinct paramPrefix) as Hdist.
  rewrite onSortingChange_differs by done. fold next.
  cbn [searchParamsString]. rewrite new_toString. clearbody next.
  unfold UrlSorting.nextParamsFor.
  destruct (Nat.eqb (length next) 0) eqn:Elen.
  { rewrite occurrences_delete_ne, occurrences_set_eq by congruence.
    rewrite occurrences_delete_eq. split; lia. }
  destruct (isSameSorting next ndef).
  { rewrite occurrences_delete_ne, !occurrences_delete_eq by congruence.
    split; lia. }
  destruct next as [|primary rest]; [done|].
  rewrite occurrences_set_ne, !occurrences_set_eq by congruence. split; lia.
Qed.

(** X13.  Two controllers with different prefixes do not disturb each other:
    a write of this controller leaves what any controller with another
    prefix reads as it was. *)
Theorem controllers_are_independent allowedColumnIds' defaultSorting'
    paramPrefix' updater b :
  effective_prefix paramPrefix <> effective_prefix paramPrefix' ->
  let sorting' :=
    UrlSorting.sorting allowedColumnIds' defaultSorting' paramPrefix' in
  sorting' (searchParamsString (onSortingChange updater b))
  = sorting' (searchParamsString b).
Proof.
  intros Hprefix sorting'. subst sorting'.
  set (next := normalizeSorting
                 (functionalUpdate updater (sorting (searchParamsString b)))
                 allowed).
  destruct (decide (next = sorting (searchParamsString b))) as [Heq|Hne].
  { by rewrite onSortingChange_same. }
  rewrite onSortingChange_differs by done. fold next.
  cbn [searchParamsString].
  assert (Hother : forall name,
    name = sortParam paramPrefix' \/ name = directionParam paramPrefix' ->
    name <> sortP /\ name <> dirP).
  { intros name Hname. unfold sortParam, directionParam in *.
    destruct (parameter_names_helper paramPrefix paramPrefix')
      as (H1 & H2 & H3 & H4).
    destruct Hname as [->| ->]; split; intros H.
    - apply Hprefix. by apply H2.
    - by apply H3.
    - by apply H1.
    - apply Hprefix. by apply H4. }
  unfold UrlSorting.sorting. rewrite new_toString.
  destruct (Hother (sortParam paramPrefix')) as [? ?]; [by left|].
  destruct (Hother (directionParam paramPrefix')) as [? ?]; [by right|].
  by rewrite !get_nextParamsFor_other.
Qed.

End HookFurther.

Section HookFurtherWitnesses.
Import UrlSorting.

Lemma onSortingChange_then_read_witness :
  let b' := agents_change (UValue []) (mkBrowser "foo=1" []) in
  agents_sorting (searchParamsString b') = [] /\
  agents_change (UValue []) b' = b'.
Proof.
  intros b'.
  apply (onSortingChange_then_read ["name"; "status"]
           (Some [mkSort "name" false]) (Some "agents") "/agents"
           (UValue []) (mkBrowser "foo=1" [])).
  intros s Hs. vm_compute in Hs. by apply elem_of_nil in Hs.
Defined.

Lemma onSortingChange_single_parameters_witness :
  let b := mkBrowser
             "agents_sort=name&agents_sort=status&agents_dir=asc&agents_dir=desc" [] in
  let params' :=
    URLSearchParams.new (searchParamsString (agents_change (UValue []) b)) in
  (occurrences "agents_sort" params' <= 1)%nat /\
  (occurrences "agents_dir" params' <= 1)%nat.
Proof.
  intros b params'.
  apply (onSortingChange_single_parameters ["name"; "status"]
           (Some [mkSort "name" false]) (Some "agents") "/agents" (UValue []) b).
  vm_compute. discriminate.
Defined.

Lemma controllers_are_independent_witness :
  let boards :=
    sorting Pages.BOARD_SORTABLE_COLUMNS Pages.pageDefaultSorting (Some "boards") in
  let b := mkBrowser "boards_sort=group&boards_dir=desc" [] in
  boards (searchParamsString (agents_change (UValue [mkSort "status" true]) b))
  = boards (searchParamsString b).
Proof.
  intros boards b.
  apply (controllers_are_independent ["name"; "status"]
           (Some [mkSort "name" false]) (Some "agents") "/agents"
           Pages.BOARD_SORTABLE_COLUMNS Pages.pageDefaultSorting (Some "boards")
           (UValue [mkSort "status" true]) b).
  vm_compute. discriminate.
Defined.

End HookFurtherWitnesses.

(* ===================================================================== *)
(** * The pages: properties *)
(* ===================================================================== *)

Section PagesProperties.
Import ListDelete.
Context {TVariables : Type}.
Variable queryKey : QueryKey.
Variable getItemId : JsVal -> string.
Variable getDeleteId : TVariables -> string.

Local Abbreviation onMutate := (ListDelete.onMutate queryKey getItemId getDeleteId).
Local Abbreviation onError := (ListDelete.onError queryKey).

(** The page lists the items of a response of status 200 with a list
    payload. *)
Lemma listed_payload response payload :
  get_prop response "status" = JNum 200 ->
  getListPayload response = Some payload ->
  Pages.listed response = Some (JArr (items payload)).
Proof.
  intros Hstatus (fs & dfs & -> & Hd & Hi & Ht & Hf)%getListPayload_Some.
  unfold Pages.listed. rewrite Hstatus. simpl. rewrite Hd. simpl. by rewrite Hi.
Qed.

(** X14.  On a page that lists the cached response, the optimistic step takes
    the deleted rows off the list at once: the list shown after [onMutate]
    holds the items shown before whose identity is not the target's, in their
    order, and no item of the target's identity; after [onError] the list
    shown is the one shown before. *)
Theorem listed_after_delete variables c prev payload :
  entries c !! queryKey = Some prev ->
  get_prop prev "status" = JNum 200 ->
  getListPayload prev = Some payload ->
  let r := onMutate variables c in
  let shown c := Pages.listed (default JUndefined (entries c !! queryKey)) in
  let remaining :=
    List.filter
      (fun item => negb (String.eqb (getItemId item) (getDeleteId variables)))
      (items payload) in
  shown c = Some (JArr (items payload)) /\
  shown r.2 = Some (JArr remaining) /\
  remaining `sublist_of` items payload /\
  (forall item, item ∈ remaining -> getItemId item <> getDeleteId variables) /\
  shown (onError (Some r.1) r.2).2 = shown c.
Proof.
  intros Hprev Hstatus Hpayload r shown remaining. subst r shown.
  cbv beta.
  destruct (onMutate_hit queryKey getItemId getDeleteId variables c prev payload
              Hprev Hstatus Hpayload)
    as (entry' & payload' & Hentries & Hstatus' & Hpayload' & Hitems & _).
  rewrite Hprev, Hentries, lookup_insert_eq. cbn [default]. unfold id.
  rewrite (listed_payload prev payload), (listed_payload entry' payload') by done.
  rewrite Hitems. fold remaining.
  split; [done|]. split; [done|]. split; [|split].
  - subst remaining. clear. induction (items payload) as [|x l IH]; simpl.
    + constructor.
    + destruct (negb _); by constructor.
  - intros item Hitem. subst remaining.
    apply list_elem_of_In, filter_In in Hitem as [_ Hne].
    by apply negb_true_iff, String.eqb_neq in Hne.
  - rewrite onMutate_onError_entries, Hprev. cbn [default]. unfold id.
    by rewrite (listed_payload prev payload).
Qed.

End PagesProperties.

Lemma listed_after_delete_witness :
  let r := ListDelete.onMutate items_key item_id (fun v : string => v) "a"
             (client_with two_items) in
  Pages.listed (default JUndefined (entries r.2 !! items_key))
  = Some (JArr [mk_item "b" "B"]).
Proof.
  intros r.
  edestruct (listed_after_delete items_key item_id (fun v : string => v) "a"
               (client_with two_items) two_items)
    as (_ & Hshown & _); [reflexivity..|].
  exact Hshown.
Defined.

Section PagesSorting.
Import UrlSorting.

(** With an allow-list that holds neither the empty string nor the sentinel,
    every request is read back as normalized. *)
Lemma clean_allow_list_round_trip allowedColumnIds defaultSorting paramPrefix
    pathname updater b :
  "" ∉ allowedColumnIds ->
  SORT_NONE_SENTINEL ∉ allowedColumnIds ->
  let sorting := sorting allowedColumnIds defaultSorting paramPrefix in
  sorting (searchParamsString
             (onSortingChange allowedColumnIds defaultSorting paramPrefix
                pathname updater b))
  = normalizeSorting (functionalUpdate updater (sorting (searchParamsString b)))
      (allowedSet allowedColumnIds).
Proof.
  intros Hempty Hsentinel sorting. subst sorting.
  apply read_after_write. intros s Hs%normalizeSorting_allowed.
  unfold allowedSet in Hs. apply elem_of_list_to_set in Hs.
  right. split; intros Heq; rewrite Heq in Hs; done.
Qed.

(** X15.  On the boards page and on the gateways page, for every query string
    and every request, the sort state read from the query string after
    [onSortingChange] is the normalized request; and the default sort of
    both pages, by name ascending, is what an empty query string reads as. *)
Theorem pages_sorting_round_trip pathname updater b :
  let boards := sorting Pages.BOARD_SORTABLE_COLUMNS Pages.pageDefaultSorting
                  (Some "boards") in
  let gateways := sorting Pages.GATEWAY_SORTABLE_COLUMNS Pages.pageDefaultSorting
                    (Some "gateways") in
  boards (searchParamsString
            (onSortingChange Pages.BOARD_SORTABLE_COLUMNS Pages.pageDefaultSorting
               (Some "boards") pathname updater b))
  = normalizeSorting (functionalUpdate updater (boards (searchParamsString b)))
      (allowedSet Pages.BOARD_SORTABLE_COLUMNS) /\
  gateways (searchParamsString
              (onSortingChange Pages.GATEWAY_SORTABLE_COLUMNS
                 Pages.pageDefaultSorting (Some "gateways") pathname updater b))
  = normalizeSorting (functionalUpdate updater (gateways (searchParamsString b)))
      (allowedSet Pages.GATEWAY_SORTABLE_COLUMNS) /\
  boards "" = [mkSort "name" false] /\
  gateways "" = [mkSort "name" false].
Proof.
  intros boards gateways. subst boards gateways.
  assert (Hclean : forall columns : list string,
            bool_decide ("" ∈ columns) = false ->
            bool_decide (SORT_NONE_SENTINEL ∈ columns) = false ->
            ("" ∉ columns) /\ (SORT_NONE_SENTINEL ∉ columns)).
  { intros columns H1 H2.
    split; [by apply bool_decide_eq_false in H1|by apply bool_decide_eq_false in H2]. }
  destruct (Hclean Pages.BOARD_SORTABLE_COLUMNS) as [? ?]; [done..|].
  destruct (Hclean Pages.GATEWAY_SORTABLE_COLUMNS) as [? ?]; [done..|].
  split; [by apply clean_allow_list_round_trip|].
  split; [by apply clean_allow_list_round_trip|].
  split; vm_compute; reflexivity.
Qed.

End PagesSorting.

(* ===================================================================== *)
(** * Board access: properties *)
(* ===================================================================== *)

Section BoardAccessProperties.
Import BoardAccess.

Lemma loadAccess_step_invariant (specs : list OrganizationBoardAccessSpec)
    (start : AccessObject) :
  map_Forall (fun _ entry => write_implies_read entry) (own start) ->
  map_Forall (fun _ entry => write_implies_read entry)
    (own (foldl loadEntry start specs)).
Proof.
  revert start. induction specs as [|spec specs IH]; intros start Hstart; [done|].
  simpl. apply IH. unfold loadEntry, assign.
  destruct (String.eqb (board_id spec) "__proto__"); [done|].
  cbn [own]. apply map_Forall_insert_2; [|done].
  unfold write_implies_read. simpl. intros ->. apply orb_true_r.
Qed.

Lemma loadAccess_step_other (specs : list OrganizationBoardAccessSpec)
    (start : AccessObject) boardId :
  boardId ∉ List.map board_id specs ->
  own (foldl loadEntry start specs) !! boardId = own start !! boardId.
Proof.
  revert start. induction specs as [|spec specs IH]; intros start Hnot; [done|].
  simpl in *. apply not_elem_of_cons in Hnot as [Hne Hnot].
  rewrite IH by done. unfold loadEntry, assign.
  destruct (String.eqb (board_id spec) "__proto__"); [done|].
  cbn [own]. by rewrite lookup_insert_ne.
Qed.

(** No assignment gives the object an own property [__proto__]. *)
Lemma loadAccess_step_proto (specs : list OrganizationBoardAccessSpec)
    (start : AccessObject) :
  own (foldl loadEntry start specs) !! "__proto__" = own start !! "__proto__".
Proof.
  revert start. induction specs as [|spec specs IH]; intros start; [done|].
  simpl. rewrite IH. unfold loadEntry, assign.
  destruct (String.eqb (board_id spec) "__proto__") eqn:E; [done|].
  cbn [own]. apply lookup_insert_ne. by apply String.eqb_neq in E.
Qed.

Lemma loadAccess_step_member (specs : list OrganizationBoardAccessSpec)
    (start : AccessObject) spec :
  NoDup (List.map board_id specs) ->
  spec ∈ specs ->
  board_id spec <> "__proto__" ->
  own (foldl loadEntry start specs) !! board_id spec
  = Some (mkEntry (can_read spec || can_write spec) (can_write spec)).
Proof.
  revert start. induction specs as [|x specs IH]; intros start Hnd Hin Hne.
  - by apply elem_of_nil in Hin.
  - simpl in *. apply NoDup_cons in Hnd as [Hx Hnd].
    apply elem_of_cons in Hin as [->|Hin].
    + rewrite loadAccess_step_other by done. unfold loadEntry, assign.
      rewrite (proj2 (String.eqb_neq _ _) Hne). apply lookup_insert_eq.
    + by apply IH.
Qed.

(** The prototype is what the last assignment under [__proto__] made it. *)
Lemma loadAccess_step_prototype (specs : list OrganizationBoardAccessSpec)
    (start : AccessObject) :
  "__proto__" ∉ List.map board_id specs ->
  proto (foldl loadEntry start specs) = proto start.
Proof.
  revert start. induction specs as [|spec specs IH]; intros start Hnot; [done|].
  simpl in *. apply not_elem_of_cons in Hnot as [Hne Hnot].
  rewrite IH by done. unfold loadEntry, assign.
  by rewrite (proj2 (String.eqb_neq _ _) (not_eq_sym Hne)).
Qed.

(** The specs listed for a map, one by one. *)
Lemma buildAccessList_elem (access : BoardAccessState) spec :
  spec ∈ buildAccessList access <->
  exists entry,
    access !! board_id spec = Some entry /\
    read entry || write entry = true /\
    can_read spec = true /\
    can_write spec = write entry.
Proof.
  unfold buildAccessList. rewrite list_elem_of_In, in_map_iff. split.
  - intros ([boardId entry] & <- & [Hin Hp]%filter_In). simpl.
    apply list_elem_of_In, elem_of_map_to_list in Hin. by exists entry.
  - intros (entry & Hlookup & Hp & Hr & Hw).
    exists (board_id spec, entry). split.
    + destruct spec as [i r w]. simpl in *. by rewrite Hp, Hr, Hw.
    + apply filter_In. split; [|done].
      by apply list_elem_of_In, elem_of_map_to_list.
Qed.

Lemma buildAccessList_NoDup (access : BoardAccessState) :
  NoDup (List.map board_id (buildAccessList access)).
Proof.
  unfold buildAccessList.
  pose proof (NoDup_fst_map_to_list access) as Hnd.
  induction (map_to_list access) as [|[k e] l IH]; simpl; [constructor|].
  simpl in Hnd. apply NoDup_cons in Hnd as [Hk Hnd].
  destruct (read e || write e); simpl; [|by apply IH].
  apply NoDup_cons. split; [|by apply IH].
  intros Hin. apply Hk. apply list_elem_of_In, in_map_iff in Hin
    as (spec & Hspec & (kv & <- & [Hkv _]%filter_In)%in_map_iff).
  destruct kv as [k' e']. simpl in Hspec. subst k'.
  apply list_elem_of_fmap. exists (k, e'). split; [done|].
  by apply list_elem_of_In.
Qed.

(** X16.  The all-boards switches: after either toggle, write access comes
    with read access, whatever the two flags were; the toggled flag is
    flipped, the per-board map is untouched, and a disabled editor does not
    react. *)
Theorem all_boards_toggles e :
  let r := handleAllReadToggle false e in
  let w := handleAllWriteToggle false e in
  (allWrite r = true -> allRead r = true) /\
  (allWrite w = true -> allRead w = true) /\
  allRead r = negb (allRead e) /\
  allWrite w = negb (allWrite e) /\
  (allRead e = true -> allRead w = true) /\
  (allWrite e = false -> allWrite r = false) /\
  access r = access e /\ access w = access e /\
  handleAllReadToggle true e = e /\ handleAllWriteToggle true e = e.
Proof.
  destruct e as [[] [] m]; vm_compute; repeat split; done.
Qed.


(** X18.  [buildAccessList] lists exactly the boards whose entry has read or
    write access, each once; every listed spec can read, and can write
    exactly when the entry has write access.  Boards whose entry has no
    access, and boards without an entry, are left out. *)
Theorem buildAccessList_lists_access (access : BoardAccessState) :
  (forall spec,
     spec ∈ buildAccessList access <->
     exists entry,
       access !! board_id spec = Some entry /\
       read entry || write entry = true /\
       can_read spec = true /\
       can_write spec = write entry) /\
  NoDup (List.map board_id (buildAccessList access)) /\
  (forall boardId,
     boardId ∈ List.map board_id (buildAccessList access) <->
     exists entry,
       access !! boardId = Some entry /\ read entry || write entry = true).
Proof.
  split; [apply buildAccessList_elem|]. split; [apply buildAccessList_NoDup|].
  intros boardId. rewrite list_elem_of_In, in_map_iff. split.
  - intros (spec & <- & Hspec%list_elem_of_In%buildAccessList_elem).
    destruct Hspec as (entry & ? & ? & _). by exists entry.
  - intros (entry & Hlookup & Hp).
    exists (mkSpec boardId true (write entry)). split; [done|].
    apply list_elem_of_In, buildAccessList_elem. by exists entry.
Qed.

(** X19.  The object loaded from a member's board access list has read
    access wherever it has write access, whatever the list holds; a board
    that is not listed has no own entry; a board listed several times takes
    its last entry, unless its id is [__proto__]: an entry under that id
    becomes the prototype of the object and never an own entry. *)
Theorem loadAccess_invariant (board_access : list OrganizationBoardAccessSpec) :
  map_Forall (fun _ entry => write_implies_read entry)
    (own (loadAccess board_access)) /\
  (forall boardId,
     boardId ∉ List.map board_id board_access ->
     own (loadAccess board_access) !! boardId = None) /\
  own (loadAccess board_access) !! "__proto__" = None /\
  (forall earlier spec,
     board_access = earlier ++ [spec] ->
     board_id spec <> "__proto__" ->
     own (loadAccess board_access) !! board_id spec
     = Some (mkEntry (can_read spec || can_write spec) (can_write spec))) /\
  (forall earlier spec,
     board_access = earlier ++ [spec] ->
     board_id spec = "__proto__" ->
     proto (loadAccess board_access)
     = Some (mkEntry (can_read spec || can_write spec) (can_write spec))
     /\ own (loadAccess board_access) = own (loadAccess earlier)).
Proof.
  split; [by apply loadAccess_step_invariant|]. split; [|split; [|split]].
  - intros boardId Hnot. unfold loadAccess.
    by rewrite loadAccess_step_other.
  - unfold loadAccess. by rewrite loadAccess_step_proto.
  - intros earlier spec -> Hne. unfold loadAccess. rewrite foldl_app. simpl.
    unfold loadEntry at 1, assign.
    rewrite (proj2 (String.eqb_neq _ _) Hne). apply lookup_insert_eq.
  - intros earlier spec -> Heq. unfold loadAccess. rewrite foldl_app. simpl.
    set (o := foldl loadEntry _ earlier). unfold loadEntry, assign.
    by rewrite (proj2 (String.eqb_eq _ _) Heq).
Qed.

(** X20.  Saving and loading: for a map in which write implies read, loading
    the list built from it gives back, as own entries, the entries of the
    map that have some access, except the one under [__proto__]: that one,
    when it has some access, becomes the prototype of the loaded object.  A
    map without an entry under [__proto__] comes back without the entries
    that have no access. *)
Theorem load_build_round_trip (access : BoardAccessState) :
  map_Forall (fun _ entry => write_implies_read entry) access ->
  let loaded := loadAccess (buildAccessList access) in
  own loaded
  = delete "__proto__" (filter (fun kv => read kv.2 || write kv.2 = true) access) /\
  proto loaded
  = filter (fun kv => read kv.2 || write kv.2 = true) access !! "__proto__" /\
  (access !! "__proto__" = None ->
   own loaded = filter (fun kv => read kv.2 || write kv.2 = true) access).
Proof.
  intros Hinv loaded. subst loaded.
  assert (Hback : forall boardId entry,
            access !! boardId = Some entry ->
            read entry || write entry = true ->
            mkSpec boardId true (write entry) ∈ buildAccessList access /\
            mkEntry (true || write entry) (write entry) = entry).
  { intros boardId entry Hlookup Hp. split.
    - apply buildAccessList_elem. by exists entry.
    - destruct entry as [[] w]; [done|]. simpl in Hp. subst w.
      by specialize (Hinv boardId _ Hlookup eq_refl). }
  assert (Hnone : forall boardId,
            filter (fun kv => read kv.2 || write kv.2 = true) access !! boardId
            = None ->
            boardId ∉ List.map board_id (buildAccessList access)).
  { intros boardId Hf
      (spec & <- & Hspec%list_elem_of_In%buildAccessList_elem)%list_elem_of_In%in_map_iff.
    destruct Hspec as (entry & Hl & Hp & _).
    apply map_lookup_filter_None in Hf as [Hf|Hf]; [congruence|].
    by apply (Hf entry Hl). }
  assert (Hown : own (loadAccess (buildAccessList access))
                 = delete "__proto__"
                     (filter (fun kv => read kv.2 || write kv.2 = true) access)).
  { apply map_eq. intros boardId.
    destruct (decide (boardId = "__proto__")) as [->|Hne].
    { rewrite lookup_delete_eq. unfold loadAccess.
      by rewrite loadAccess_step_proto. }
    rewrite lookup_delete_ne by done.
    destruct (filter (fun kv => read kv.2 || write kv.2 = true) access !! boardId)
      as [entry|] eqn:Hf.
    - apply map_lookup_filter_Some in Hf as [Hlookup Hp]. simpl in Hp.
      destruct (Hback boardId entry Hlookup Hp) as [Hin Hentry].
      pose proof (loadAccess_step_member (buildAccessList access)
                    (mkObject ∅ None) _ (buildAccessList_NoDup access) Hin Hne)
        as Hload.
      simpl in Hload. unfold loadAccess. rewrite Hload. f_equal.
      exact Hentry.
    - unfold loadAccess. rewrite loadAccess_step_other; [done|].
      by apply Hnone. }
  split; [exact Hown|]. split.
  - destruct (filter (fun kv => read kv.2 || write kv.2 = true) access
                !! "__proto__") as [entry|] eqn:Hf.
    + apply map_lookup_filter_Some in Hf as [Hlookup Hp]. simpl in Hp.
      destruct (Hback "__proto__" entry Hlookup Hp) as [Hin Hentry].
      apply list_elem_of_split in Hin as (before & after & Hsplit).
      pose proof (buildAccessList_NoDup access) as Hnd.
      unfold loadAccess. rewrite Hsplit in *.
      rewrite List.map_app in Hnd. cbn [List.map board_id] in Hnd.
      apply NoDup_app in Hnd as (_ & _ & Hnd).
      apply NoDup_cons in Hnd as [Hnot _].
      rewrite foldl_app. cbn [foldl].
      rewrite loadAccess_step_prototype by done.
      unfold loadEntry, assign. cbn [board_id can_read can_write].
      rewrite String.eqb_refl. cbn [proto]. f_equal. exact Hentry.
    + unfold loadAccess. rewrite loadAccess_step_prototype; [done|].
      by apply Hnone.
  - intros Habsent. rewrite Hown. apply delete_id.
    apply map_lookup_filter_None. by left.
Qed.

End BoardAccessProperties.

Lemma load_build_round_trip_witness :
  let access : gmap string BoardAccess.Entry :=
    {[ "board-1" := BoardAccess.mkEntry true true ]} in
  BoardAccess.own (BoardAccess.loadAccess (BoardAccess.buildAccessList access))
  = filter (fun kv => BoardAccess.read kv.2 || BoardAccess.write kv.2 = true) access.
Proof.
  intros access.
  destruct (load_build_round_trip access) as (_ & _ & Hsame).
  - apply map_Forall_singleton. intros _. reflexivity.
  - apply Hsame. reflexivity.
Defined.

(** A map with an own entry under [__proto__] does not come back: the list
    built from it names the board, and loading the list makes the entry the
    prototype of an object without own entries. *)
Example load_build_loses_proto :
  let access : gmap string BoardAccess.Entry :=
    {[ "__proto__" := BoardAccess.mkEntry true false ]} in
  BoardAccess.buildAccessList access
  = [BoardAccess.mkSpec "__proto__" true false] /\
  BoardAccess.loadAccess (BoardAccess.buildAccessList access)
  = BoardAccess.mkObject ∅ (Some (BoardAccess.mkEntry true false)).
Proof. split; reflexivity. Qed.
